(** * Akumuli ingestion engine: registry entries, the tree registry and
      ingestion sessions

    A shallow embedding of [libakumuli/ingestion_engine/ingestion_engine.cpp].

    The C++ objects live on a heap and are shared through [std::shared_ptr];
    the embedding keeps that heap explicit.  An extent list is a heap block
    with its strong reference count ([use_count]); a [std::shared_ptr] to it
    is the address of the block.  Every mutex-protected member function is
    one atomic state transformer on the [World]. *)

From stdpp Require Import gmap strings list fin_maps.
From Stdlib Require Import ZArith Lia Ascii.

Local Open Scope Z_scope.

(** ** Plain data *)

(** [aku_Status]: the status codes this file uses.  [AKU_EBAD_DATA] stands
    for the failures of the series name parser. *)
Inductive aku_Status :=
| AKU_SUCCESS
| AKU_EBUSY
| AKU_ENOT_FOUND
| AKU_ETIMEOUT
| AKU_ERETRY
| AKU_ECLOSED
| AKU_EBAD_ARG
| AKU_ELATE_WRITE
| AKU_EBAD_DATA.

#[global] Instance aku_Status_eq_dec : EqDecision aku_Status.
Proof. solve_decision. Defined.

(** [StorageEngine::NBTreeAppendResult]. *)
Inductive NBTreeAppendResult :=
| OK
| OK_FLUSH_NEEDED
| FAIL_LATE_WRITE
| FAIL_BAD_ID.

#[global] Instance NBTreeAppendResult_eq_dec : EqDecision NBTreeAppendResult.
Proof. solve_decision. Defined.

(** The payload tag of a sample: [AKU_PAYLOAD_FLOAT] or anything else. *)
Inductive aku_PayloadType :=
| AKU_PAYLOAD_FLOAT
| AKU_PAYLOAD_OTHER.

#[global] Instance aku_PayloadType_eq_dec : EqDecision aku_PayloadType.
Proof. solve_decision. Defined.

(** [aku_Sample].  [paramid] is a [u64], [timestamp] an [aku_Timestamp];
    [float64] is the bit pattern of the double, which this layer only
    passes on to the extent list. *)
Record aku_Sample := mk_sample {
  paramid : Z;
  timestamp : Z;
  payload_type : aku_PayloadType;
  float64 : Z
}.

(** [std::cv_status], the result of [cvar_.wait_for]. *)
Inductive cv_status :=
| cv_no_timeout
| cv_timeout.

(** The two ways the embedded code can leave defined behaviour. *)
Inductive Fault :=
| EndIteratorDeref   (* [it->second] with [it == cache_.end()] *)
| BufferOverrun      (* [memcpy] of more bytes than the buffer holds *)
| DanglingPointer.   (* a member call on an object that is gone *)

#[global] Instance Fault_eq_dec : EqDecision Fault.
Proof. solve_decision. Defined.

(** [static_cast<int>(buffer_size)]: a [size_t] reduced to a 32-bit
    two's complement [int]. *)
Definition static_cast_int (z : Z) : Z := (z + 2 ^ 31) mod 2 ^ 32 - 2 ^ 31.

(** [memcpy(buffer, src, len)] on a buffer whose real capacity is the
    length of the list: the first [len] bytes are replaced; there is no
    result when [src] does not fit. *)
Definition memcpy (buffer : list ascii) (src : string) : option (list ascii) :=
  let bytes := String.list_ascii_of_string src in
  if decide (length bytes ≤ length buffer)%nat
  then Some (bytes ++ drop (length bytes) buffer)
  else None.

(** ** Collaborators that are not part of this translation unit *)

(** Modelled from the spec: the class [SeriesMatcher] (the name catalog) is
    declared outside this file.  The spec describes it as a bidirectional
    mapping between canonical names and ids that only grows, with [0]
    reserved for "no match", fresh nonzero ids, and a batch of newly
    registered names that can be drained. *)
Module SeriesMatcher.

(** Modelled from the spec: the catalog state of [SeriesMatcher]:
    name to id, id to name, the next fresh id, the names added since the
    last drain. *)
Record t := mk {
  table : gmap string Z;
  inv_table : gmap Z string;
  series_id : Z;
  names : list (string * Z)
}.

(** Modelled from the spec: the empty [SeriesMatcher]; ids are nonzero, so
    the first fresh id is 1. *)
Definition empty : t := mk ∅ ∅ 1 [].

(** Modelled from the spec: [SeriesMatcher::match], the id of a name, [0]
    when there is none. *)
Definition match_ (name : string) (m : t) : Z :=
  default 0 (table m !! name).

(** Modelled from the spec: [SeriesMatcher::add], which allocates a fresh
    id, records the pair in both directions and remembers the name as
    newly registered. *)
Definition add (name : string) (m : t) : Z * t :=
  let id := series_id m in
  (id, mk (<[name := id]> (table m)) (<[id := name]> (inv_table m))
          (id + 1) (names m ++ [(name, id)])).

(** Modelled from the spec: [SeriesMatcher::_add], which mirrors a known
    pair into a matcher. *)
Definition _add (name : string) (id : Z) (m : t) : t :=
  mk (<[name := id]> (table m)) (<[id := name]> (inv_table m))
     (series_id m) (names m).

(** Modelled from the spec: [SeriesMatcher::id2str]; [None] is the pair
    with a null pointer. *)
Definition id2str (id : Z) (m : t) : option string := inv_table m !! id.

(** Modelled from the spec: [SeriesMatcher::pull_new_names], which drains
    the newly registered names. *)
Definition pull_new_names (m : t) : list (string * Z) * t :=
  (names m, mk (table m) (inv_table m) (series_id m) []).

End SeriesMatcher.

(** Modelled from the spec: the class [MetadataStorage] (the durable catalog
    of names and rescue points) is declared outside this file.  Whether a
    call to it throws is an input of the model. *)
Module MetadataStorage.

(** Modelled from the spec: the content of the [MetadataStorage]: the
    stored names and the stored rescue points. *)
Record t := mk {
  names : list (string * Z);
  rescue_points : gmap Z (list Z)
}.

(** Modelled from the spec: an empty [MetadataStorage]. *)
Definition empty : t := mk [] ∅.

(** Modelled from the spec: [MetadataStorage::insert_new_names]; [None]
    when the call throws. *)
Definition insert_new_names (throws : bool) (items : list (string * Z)) (m : t)
  : option t :=
  if throws then None
  else Some (mk (names m ++ items) (rescue_points m)).

(** Modelled from the spec: [MetadataStorage::upsert_rescue_points].  The
    argument is moved in: the first component is what is left in the
    caller's map afterwards (everything when the call throws, nothing
    when it succeeds); the stored value of every id of the input is
    replaced. *)
Definition upsert_rescue_points (throws : bool) (input : gmap Z (list Z)) (m : t)
  : gmap Z (list Z) * option t :=
  if throws then (input, None)
  else (∅, Some (mk (names m) (input ∪ rescue_points m))).

End MetadataStorage.

(** The extent list ([StorageEngine::NBTreeExtentsList]) and the series name
    parser ([SeriesParser::to_normal_form]) are opaque to this file; the
    development is parametric in them.  [to_normal_form] returns the status
    and the canonical name, the bytes between [ob] and [ksend]. *)
Class Collaborators := {
  NBTreeExtentsList : Type;
  nbtree_new : Z → list Z → NBTreeExtentsList;
  nbtree_append : Z → Z → NBTreeExtentsList → NBTreeAppendResult * NBTreeExtentsList;
  nbtree_get_roots : NBTreeExtentsList → list Z;
  to_normal_form : string → aku_Status * string
}.

Section IngestionEngine.

Context `{Ext : Collaborators}.

(** ** The heap of extent lists *)

(** The control block of a [std::shared_ptr<NBTreeExtentsList>]: the object
    and the number of strong references to it. *)
Record SharedBlock := mk_block {
  pointee : NBTreeExtentsList;
  use_count : nat
}.

(** Copying a [shared_ptr]. *)
Definition acquire_ref (h : nat) (hp : list SharedBlock) : list SharedBlock :=
  alter (λ b, mk_block (pointee b) (S (use_count b))) h hp.

(** Destroying a [shared_ptr]. *)
Definition release_ref (h : nat) (hp : list SharedBlock) : list SharedBlock :=
  alter (λ b, mk_block (pointee b) (pred (use_count b))) h hp.

(** Destroying a whole [cache_]: every handle in it is released. *)
Definition release_all (cache : gmap Z nat) (hp : list SharedBlock) : list SharedBlock :=
  foldr release_ref hp ((map_to_list cache).*2).

(** ** Object states *)

(** [RegistryEntry]: the [shared_ptr] to its extent list. *)
Record RegistryEntry := mk_entry { roots_ : nat }.

(** [TreeRegistry].  [active_] maps the address of a session to a weak
    pointer to that same session, so it is kept as the list of those
    addresses, in the iteration order of the container. *)
Record TreeRegistry := mk_registry {
  global_matcher_ : SeriesMatcher.t;
  table_ : gmap Z RegistryEntry;
  rescue_points_ : gmap Z (list Z);
  active_ : list nat;
  metadata_ : MetadataStorage.t
}.

(** [IngestionSession]; its [registry_] is the one registry of the world. *)
Record IngestionSession := mk_session {
  local_matcher_ : SeriesMatcher.t;
  cache_ : gmap Z nat
}.

(** The whole state: the heap, the registry ([None] once it has been torn
    down, so that [registry_.lock()] fails), the live sessions by address,
    and the handles that callers of [TreeRegistry::try_acquire] outside any
    session still hold. *)
Record World := mk_world {
  heap : list SharedBlock;
  registry : option TreeRegistry;
  sessions : gmap nat IngestionSession;
  external : list nat
}.

Definition set_heap (hp : list SharedBlock) (w : World) : World :=
  mk_world hp (registry w) (sessions w) (external w).

Definition set_registry (r : option TreeRegistry) (w : World) : World :=
  mk_world (heap w) r (sessions w) (external w).

Definition set_sessions (ss : gmap nat IngestionSession) (w : World) : World :=
  mk_world (heap w) (registry w) ss (external w).

Definition set_external (ex : list nat) (w : World) : World :=
  mk_world (heap w) (registry w) (sessions w) ex.

Definition set_session (tok : nat) (s : IngestionSession) (w : World) : World :=
  set_sessions (<[tok := s]> (sessions w)) w.

(** The outcome of a member function: a value and the state it leaves, or
    the fault and the state in which it happened. *)
Inductive Result (A : Type) :=
| Ret (a : A) (w : World)
| Crash (f : Fault) (w : World).

Arguments Ret {A} a w.
Arguments Crash {A} f w.

Definition rbind {A B : Type} (r : Result A) (k : A → World → Result B) : Result B :=
  match r with
  | Ret a w => k a w
  | Crash f w => Crash f w
  end.

Definition result_world {A : Type} (r : Result A) : World :=
  match r with
  | Ret _ w => w
  | Crash _ w => w
  end.

(** ** Registry entry *)

(** [RegistryEntry::is_available]: [roots_.unique()]. *)
Definition RegistryEntry_is_available (e : RegistryEntry) (hp : list SharedBlock) : bool :=
  match hp !! roots_ e with
  | Some b => bool_decide (use_count b = 1%nat)
  | None => false
  end.

(** [RegistryEntry::try_acquire].  The returned copy of [roots_] is one more
    strong reference; [EMPTY_EXTL] is [None]. *)
Definition RegistryEntry_try_acquire (e : RegistryEntry) (hp : list SharedBlock)
  : aku_Status * option nat * list SharedBlock :=
  if RegistryEntry_is_available e hp
  then (AKU_SUCCESS, Some (roots_ e), acquire_ref (roots_ e) hp)
  else (AKU_EBUSY, None, hp).

(** ** Tree registry *)

(** [TreeRegistry::update_rescue_points]. *)
Definition TreeRegistry_update_rescue_points (id : Z) (addrlist : list Z)
    (reg : TreeRegistry) : TreeRegistry :=
  mk_registry (global_matcher_ reg) (table_ reg)
              (<[id := addrlist]> (rescue_points_ reg))
              (active_ reg) (metadata_ reg).

(** How a call of [sync_with_metadata_storage] ends. *)
Inductive SyncOutcome :=
| SyncReturned
| SyncThrown.

(** [TreeRegistry::sync_with_metadata_storage].  The two booleans say
    whether the metadata store throws in [insert_new_names] and in
    [upsert_rescue_points]; an exception leaves the function at once. *)
Definition TreeRegistry_sync_with_metadata_storage
    (insert_throws upsert_throws : bool) (reg : TreeRegistry)
  : SyncOutcome * TreeRegistry :=
  let '(newnames, gm) := SeriesMatcher.pull_new_names (global_matcher_ reg) in
  match MetadataStorage.insert_new_names insert_throws newnames (metadata_ reg) with
  | None =>
      (SyncThrown,
       mk_registry gm (table_ reg) (rescue_points_ reg) (active_ reg) (metadata_ reg))
  | Some meta1 =>
      match MetadataStorage.upsert_rescue_points upsert_throws (rescue_points_ reg) meta1 with
      | (rest, None) =>
          (SyncThrown, mk_registry gm (table_ reg) rest (active_ reg) meta1)
      | (rest, Some meta2) =>
          (SyncReturned, mk_registry gm (table_ reg) rest (active_ reg) meta2)
      end
  end.

(** [TreeRegistry::wait_for_sync_request]; [res] is what [cvar_.wait_for]
    returned. *)
Definition TreeRegistry_wait_for_sync_request (res : cv_status) (reg : TreeRegistry)
  : aku_Status :=
  match res with
  | cv_timeout => AKU_ETIMEOUT
  | cv_no_timeout =>
      if decide (rescue_points_ reg = ∅) then AKU_ERETRY else AKU_SUCCESS
  end.

(** [TreeRegistry::init_series_id].  The new extent list is allocated at the
    end of the heap, with the entry's [roots_] as its only reference. *)
Definition TreeRegistry_init_series_id (name : string) (sample : aku_Sample)
    (local_matcher : SeriesMatcher.t) (reg : TreeRegistry) (hp : list SharedBlock)
  : aku_Status * aku_Sample * SeriesMatcher.t * TreeRegistry * list SharedBlock :=
  let id0 := SeriesMatcher.match_ name (global_matcher_ reg) in
  let '(id, reg1, hp1) :=
    if decide (id0 = 0) then
      let '(id, gm) := SeriesMatcher.add name (global_matcher_ reg) in
      let tree := nbtree_new id [] in
      let entry := mk_entry (length hp) in
      (id,
       mk_registry gm (<[id := entry]> (table_ reg))
                   (<[id := []]> (rescue_points_ reg))
                   (active_ reg) (metadata_ reg),
       hp ++ [mk_block tree 1])
    else (id0, reg, hp) in
  (AKU_SUCCESS,
   mk_sample id (timestamp sample) (payload_type sample) (float64 sample),
   SeriesMatcher._add name id local_matcher, reg1, hp1).

(** [TreeRegistry::get_series_name].  The result is the returned [int] and
    the buffer, or the fault; the local matcher is updated before the size
    check. *)
Definition TreeRegistry_get_series_name (id : Z) (buffer : list ascii)
    (buffer_size : Z) (local_matcher : SeriesMatcher.t) (reg : TreeRegistry)
  : (Fault + Z * list ascii) * SeriesMatcher.t :=
  match SeriesMatcher.id2str id (global_matcher_ reg) with
  | None => (inr (0, buffer), local_matcher)
  | Some str =>
      let lm := SeriesMatcher._add str id local_matcher in
      let len := Z.of_nat (String.length str) in
      if decide (len > static_cast_int buffer_size) then (inr (-1 * len, buffer), lm)
      else match memcpy buffer str with
           | Some buffer' => (inr (len, buffer'), lm)
           | None => (inl BufferOverrun, lm)
           end
  end.

(** [active_[id] = sptr].  [active_] is a map keyed by the address of the
    session: a key is in it at most once, and where a new key comes in the
    iteration order is the container's business.  The list puts it last;
    no statement below depends on that position. *)
Definition active_insert (ptr : nat) (active : list nat) : list nat :=
  if decide (ptr ∈ active) then active else active ++ [ptr].

(** [TreeRegistry::remove_dispatcher]. *)
Definition TreeRegistry_remove_dispatcher (disp : nat) (reg : TreeRegistry) : TreeRegistry :=
  mk_registry (global_matcher_ reg) (table_ reg) (rescue_points_ reg)
              (filter (λ t, t ≠ disp) (active_ reg)) (metadata_ reg).

(** [TreeRegistry::try_acquire]. *)
Definition TreeRegistry_try_acquire (id : Z) (reg : TreeRegistry) (hp : list SharedBlock)
  : aku_Status * option nat * list SharedBlock :=
  match table_ reg !! id with
  | Some e => RegistryEntry_try_acquire e hp
  | None => (AKU_ENOT_FOUND, None, hp)
  end.

(** ** Ingestion session *)

(** [it->second->append(sample.timestamp, sample.payload.float64)] through
    the handle [h]. *)
Definition append_at (h : nat) (sample : aku_Sample) (w : World)
  : Result NBTreeAppendResult :=
  match heap w !! h with
  | Some b =>
      let '(r, tree) := nbtree_append (timestamp sample) (float64 sample) (pointee b) in
      Ret r (set_heap (<[h := mk_block tree (use_count b)]> (heap w)) w)
  | None => Crash DanglingPointer w
  end.

(** [IngestionSession::_receive_broadcast], called on the session at [self]. *)
Definition IngestionSession_receive_broadcast (self : nat) (sample : aku_Sample)
    (w : World) : Result (bool * NBTreeAppendResult) :=
  match sessions w !! self with
  | None => Crash DanglingPointer w
  | Some s =>
      match cache_ s !! paramid sample with
      | Some h => rbind (append_at h sample w) (λ result w', Ret (true, result) w')
      | None => Ret (false, OK) w
      end
  end.

(** The loop of [TreeRegistry::broadcast_sample] over [active_]:
    [wdisp.second.lock()] succeeds for the live sessions. *)
Fixpoint broadcast_loop (active : list nat) (sample : aku_Sample) (source : nat)
    (w : World) : Result NBTreeAppendResult :=
  match active with
  | [] => Ret FAIL_BAD_ID w
  | wdisp :: rest =>
      match sessions w !! wdisp with
      | Some _ =>
          if decide (wdisp ≠ source) then
            rbind (IngestionSession_receive_broadcast wdisp sample w)
                  (λ '(stop, result) w',
                     if stop then Ret result w'
                     else broadcast_loop rest sample source w')
          else broadcast_loop rest sample source w
      | None => broadcast_loop rest sample source w
      end
  end.

(** [TreeRegistry::broadcast_sample]. *)
Definition TreeRegistry_broadcast_sample (sample : aku_Sample) (source : nat)
    (reg : TreeRegistry) (w : World) : Result NBTreeAppendResult :=
  broadcast_loop (active_ reg) sample source w.

(** [TreeRegistry::create_session]: the new session gets an address that no
    live session has. *)
Definition TreeRegistry_create_session (w : World) : option (nat * World) :=
  match registry w with
  | None => None
  | Some reg =>
      let ptr := fresh (dom (sessions w)) in
      let reg' := mk_registry (global_matcher_ reg) (table_ reg) (rescue_points_ reg)
                              (active_insert ptr (active_ reg)) (metadata_ reg) in
      Some (ptr, set_registry (Some reg')
                   (set_session ptr (mk_session SeriesMatcher.empty ∅) w))
  end.

(** [IngestionSession::close]. *)
Definition IngestionSession_close (self : nat) (w : World) : World :=
  match registry w with
  | Some reg => set_registry (Some (TreeRegistry_remove_dispatcher self reg)) w
  | None => w
  end.

(** The deleter installed by [create_session]: [p->close(); delete p;].
    Deleting the session destroys its [cache_]. *)
Definition session_deleter (self : nat) (w : World) : World :=
  let w1 := IngestionSession_close self w in
  match sessions w1 !! self with
  | Some s =>
      set_sessions (delete self (sessions w1)) (set_heap (release_all (cache_ s) (heap w1)) w1)
  | None => w1
  end.

(** The implicit destructor of [TreeRegistry], run when its last owner lets
    go of it: [table_] is destroyed and, with every entry, the entry's
    [roots_] reference; the sessions keep the references of their caches,
    and their [registry_.lock()] fails from then on. *)
Definition TreeRegistry_destructor (w : World) : World :=
  match registry w with
  | Some reg =>
      set_registry None
        (set_heap (foldr release_ref (heap w) (roots_ <$> (map_to_list (table_ reg)).*2)) w)
  | None => w
  end.

(** [IngestionSession::init_series_id]. *)
Definition IngestionSession_init_series_id (self : nat) (raw : string)
    (sample : aku_Sample) (w : World) : Result (aku_Status * aku_Sample) :=
  match sessions w !! self with
  | None => Crash DanglingPointer w
  | Some s =>
      let '(status, name) := to_normal_form raw in
      if decide (status ≠ AKU_SUCCESS) then Ret (status, sample) w
      else
        let id := SeriesMatcher.match_ name (local_matcher_ s) in
        if decide (id = 0) then
          match registry w with
          | Some reg =>
              let '(status', sample', lm, reg', hp') :=
                TreeRegistry_init_series_id name sample (local_matcher_ s) reg (heap w) in
              Ret (status', sample')
                  (set_session self (mk_session lm (cache_ s))
                     (set_registry (Some reg') (set_heap hp' w)))
          | None => Ret (AKU_ECLOSED, sample) w
          end
        else
          Ret (status,
               mk_sample id (timestamp sample) (payload_type sample) (float64 sample)) w
  end.

(** [IngestionSession::get_series_name].  A name found in the local matcher
    is copied without looking at [buffer_size]. *)
Definition IngestionSession_get_series_name (self : nat) (id : Z)
    (buffer : list ascii) (buffer_size : Z) (w : World) : Result (Z * list ascii) :=
  match sessions w !! self with
  | None => Crash DanglingPointer w
  | Some s =>
      match SeriesMatcher.id2str id (local_matcher_ s) with
      | None =>
          match registry w with
          | Some reg =>
              let '(r, lm) :=
                TreeRegistry_get_series_name id buffer buffer_size (local_matcher_ s) reg in
              let w' := set_session self (mk_session lm (cache_ s)) w in
              match r with
              | inl f => Crash f w'
              | inr out => Ret out w'
              end
          | None => Ret (0, buffer) w
          end
      | Some name =>
          match memcpy buffer name with
          | Some buffer' => Ret (Z.of_nat (String.length name), buffer') w
          | None => Crash BufferOverrun w
          end
      end
  end.

(** The first half of [IngestionSession::write], up to the end of the
    [if (it == cache_.end())] statement: the status and the append result.
    [it] is the result of [cache_.find(id)]. *)
Definition write_dispatch (self : nat) (s : IngestionSession) (sample : aku_Sample)
    (it : option nat) (w : World) : Result (aku_Status * NBTreeAppendResult) :=
  let id := paramid sample in
  match it with
  | None =>
      match registry w with
      | Some reg =>
          let '(status, entry, hp) := TreeRegistry_try_acquire id reg (heap w) in
          let w0 := set_heap hp w in
          match status with
          | AKU_SUCCESS =>
              match entry with
              | Some h =>
                  let w1 := set_session self
                              (mk_session (local_matcher_ s) (<[id := h]> (cache_ s))) w0 in
                  rbind (append_at h sample w1) (λ r w2, Ret (AKU_SUCCESS, r) w2)
              | None => Crash DanglingPointer w0
              end
          | AKU_EBUSY =>
              rbind (TreeRegistry_broadcast_sample sample self reg w0)
                    (λ r w2, Ret (AKU_SUCCESS, r) w2)
          | _ => Ret (status, OK) w0
          end
      | None => Ret (AKU_ECLOSED, OK) w
      end
  | Some h => rbind (append_at h sample w) (λ r w2, Ret (AKU_SUCCESS, r) w2)
  end.

(** The second half of [IngestionSession::write]: the [switch] on the append
    result.  [it] is still the iterator computed before the first half; the
    [OK_FLUSH_NEEDED] case dereferences it. *)
Definition write_interpret (id : Z) (it : option nat) (status : aku_Status)
    (append_result : NBTreeAppendResult) (w : World) : Result aku_Status :=
  if decide (status = AKU_SUCCESS) then
    match append_result with
    | OK => Ret status w
    | OK_FLUSH_NEEDED =>
        match it with
        | None => Crash EndIteratorDeref w
        | Some h =>
            match heap w !! h with
            | None => Crash DanglingPointer w
            | Some b =>
                let rescue_points := nbtree_get_roots (pointee b) in
                match registry w with
                | Some reg =>
                    Ret status
                        (set_registry
                           (Some (TreeRegistry_update_rescue_points id rescue_points reg)) w)
                | None => Ret AKU_ECLOSED w
                end
            end
        end
    | FAIL_LATE_WRITE => Ret AKU_ELATE_WRITE w
    | FAIL_BAD_ID => Ret AKU_ENOT_FOUND w
    end
  else Ret status w.

(** [IngestionSession::write]. *)
Definition IngestionSession_write (self : nat) (sample : aku_Sample) (w : World)
  : Result aku_Status :=
  match sessions w !! self with
  | None => Crash DanglingPointer w
  | Some s =>
      if decide (payload_type sample ≠ AKU_PAYLOAD_FLOAT) then Ret AKU_EBAD_ARG w
      else
        let it := cache_ s !! paramid sample in
        rbind (write_dispatch self s sample it w)
              (λ '(status, append_result) w1,
                 write_interpret (paramid sample) it status append_result w1)
  end.

(** ** Runs of the engine *)

(** The registry right after its constructor, around a metadata store. *)
Definition new_registry (meta : MetadataStorage.t) : TreeRegistry :=
  mk_registry SeriesMatcher.empty ∅ ∅ [] meta.

Definition initial_world (meta : MetadataStorage.t) : World :=
  mk_world [] (Some (new_registry meta)) ∅ [].

(** One call that returns, by a client of the engine, while the registry is
    alive.  A call that ends in a [Fault] has no successor state.
    [step_try_acquire] is a caller of [TreeRegistry::try_acquire] outside
    any session who keeps the handle it is given, [step_release] is that
    caller dropping one. *)
Inductive Step : World → World → Prop :=
| step_create_session w ptr w' :
    TreeRegistry_create_session w = Some (ptr, w') →
    Step w w'
| step_close w tok :
    is_Some (sessions w !! tok) →
    Step w (IngestionSession_close tok w)
| step_delete w tok :
    is_Some (sessions w !! tok) →
    Step w (session_deleter tok w)
| step_init_series_id w tok raw sample r w' :
    IngestionSession_init_series_id tok raw sample w = Ret r w' →
    Step w w'
| step_get_series_name w tok id buffer buffer_size r w' :
    IngestionSession_get_series_name tok id buffer buffer_size w = Ret r w' →
    Step w w'
| step_write w tok sample status w' :
    IngestionSession_write tok sample w = Ret status w' →
    Step w w'
| step_receive_broadcast w tok sample r w' :
    IngestionSession_receive_broadcast tok sample w = Ret r w' →
    Step w w'
| step_try_acquire w reg id status entry hp :
    registry w = Some reg →
    TreeRegistry_try_acquire id reg (heap w) = (status, entry, hp) →
    Step w (set_external (option_list entry ++ external w) (set_heap hp w))
| step_release w ex1 h ex2 :
    external w = ex1 ++ h :: ex2 →
    Step w (set_external (ex1 ++ ex2) (set_heap (release_ref h (heap w)) w))
| step_update_rescue_points w reg id addrlist :
    registry w = Some reg →
    Step w (set_registry (Some (TreeRegistry_update_rescue_points id addrlist reg)) w)
| step_sync w reg insert_throws upsert_throws out reg' :
    registry w = Some reg →
    TreeRegistry_sync_with_metadata_storage insert_throws upsert_throws reg = (out, reg') →
    Step w (set_registry (Some reg') w).

(** The states a process can be in: any number of calls after start-up. *)
Definition Reachable (w : World) : Prop :=
  ∃ meta, rtc Step (initial_world meta) w.

(** ** What ownership and naming depend on *)

(** The part of a world that decides who owns which extent list and which
    name has which id: the reference counts, the roots of the table, the
    caches of the sessions, the handles held outside sessions, and both
    directions of the global and of the local catalogs. *)
Record View := mk_view {
  counts : list nat;
  tbl : gmap Z nat;
  caches : gmap nat (gmap Z nat);
  ext : list nat;
  next_id : Z;
  gtable : gmap string Z;
  ginv : gmap Z string;
  ltables : gmap nat (gmap string Z);
  linvs : gmap nat (gmap Z string)
}.

Definition view_of (w : World) : option View :=
  match registry w with
  | Some reg =>
      Some (mk_view (use_count <$> heap w) (roots_ <$> table_ reg)
                    (cache_ <$> sessions w) (external w)
                    (SeriesMatcher.series_id (global_matcher_ reg))
                    (SeriesMatcher.table (global_matcher_ reg))
                    (SeriesMatcher.inv_table (global_matcher_ reg))
                    ((λ s, SeriesMatcher.table (local_matcher_ s)) <$> sessions w)
                    ((λ s, SeriesMatcher.inv_table (local_matcher_ s)) <$> sessions w))
  | None => None
  end.

(** Two worlds that differ at most in the content of the extent lists. *)
Definition same_shape (w w' : World) : Prop :=
  registry w' = registry w ∧ sessions w' = sessions w ∧
  external w' = external w ∧ use_count <$> heap w' = use_count <$> heap w.

(** The ways a call changes the view. *)
Inductive VStep : View → View → Prop :=
| vs_grant v tok c id h :
    caches v !! tok = Some c → c !! id = None →
    tbl v !! id = Some h → counts v !! h = Some 1%nat →
    VStep v (mk_view (alter S h (counts v)) (tbl v)
                     (<[tok := <[id := h]> c]> (caches v)) (ext v) (next_id v)
                     (gtable v) (ginv v) (ltables v) (linvs v))
| vs_grant_ext v id h :
    tbl v !! id = Some h → counts v !! h = Some 1%nat →
    VStep v (mk_view (alter S h (counts v)) (tbl v) (caches v) (h :: ext v)
                     (next_id v) (gtable v) (ginv v) (ltables v) (linvs v))
| vs_release_ext v ex1 h ex2 :
    ext v = ex1 ++ h :: ex2 →
    VStep v (mk_view (alter pred h (counts v)) (tbl v) (caches v) (ex1 ++ ex2)
                     (next_id v) (gtable v) (ginv v) (ltables v) (linvs v))
| vs_create v ptr :
    caches v !! ptr = None →
    VStep v (mk_view (counts v) (tbl v) (<[ptr := ∅]> (caches v)) (ext v)
                     (next_id v) (gtable v) (ginv v)
                     (<[ptr := ∅]> (ltables v)) (<[ptr := ∅]> (linvs v)))
| vs_delete v tok c :
    caches v !! tok = Some c →
    VStep v (mk_view (foldr (alter pred) (counts v) ((map_to_list c).*2)) (tbl v)
                     (delete tok (caches v)) (ext v) (next_id v) (gtable v) (ginv v)
                     (delete tok (ltables v)) (delete tok (linvs v)))
| vs_register v name :
    default 0 (gtable v !! name) = 0 →
    VStep v (mk_view (counts v ++ [1%nat])
                     (<[next_id v := length (counts v)]> (tbl v))
                     (caches v) (ext v) (next_id v + 1)
                     (<[name := next_id v]> (gtable v))
                     (<[next_id v := name]> (ginv v)) (ltables v) (linvs v))
| vs_mirror v tok name id lt li :
    ltables v !! tok = Some lt → linvs v !! tok = Some li →
    gtable v !! name = Some id → ginv v !! id = Some name →
    VStep v (mk_view (counts v) (tbl v) (caches v) (ext v) (next_id v)
                     (gtable v) (ginv v)
                     (<[tok := <[name := id]> lt]> (ltables v))
                     (<[tok := <[id := name]> li]> (linvs v))).

(** The invariant of the view.  [own_single] is the single-writer property:
    an id is in the cache of at most one session. *)
Record view_ok (v : View) : Prop := mk_view_ok {
  own_single : ∀ tok1 tok2 c1 c2 id,
    caches v !! tok1 = Some c1 → caches v !! tok2 = Some c2 →
    is_Some (c1 !! id) → is_Some (c2 !! id) → tok1 = tok2;
  own_held : ∀ tok c id h,
    caches v !! tok = Some c → c !! id = Some h →
    tbl v !! id = Some h ∧ ∃ n, counts v !! h = Some n ∧ n ≠ 1%nat;
  own_ext : ∀ h, h ∈ ext v →
    (∃ id, tbl v !! id = Some h) ∧ ∃ n, counts v !! h = Some n ∧ n ≠ 1%nat;
  own_excl : ∀ tok c id h,
    caches v !! tok = Some c → c !! id = Some h → h ∉ ext v;
  own_bound : ∀ id h, tbl v !! id = Some h → (h < length (counts v))%nat;
  own_inj : ∀ id1 id2 h, tbl v !! id1 = Some h → tbl v !! id2 = Some h → id1 = id2;
  own_fresh : ∀ id h, tbl v !! id = Some h → id < next_id v;
  own_nodup : NoDup (ext v);
  names_bij : ∀ n i, gtable v !! n = Some i ↔ ginv v !! i = Some n;
  names_range : ∀ n i, gtable v !! n = Some i → 0 < i < next_id v;
  names_next : 0 < next_id v;
  names_local_fwd : ∀ tok lt n i,
    ltables v !! tok = Some lt → lt !! n = Some i → gtable v !! n = Some i;
  names_local_bwd : ∀ tok li n i,
    linvs v !! tok = Some li → li !! i = Some n → ginv v !! i = Some n;
  names_local_dom : ∀ tok, is_Some (ltables v !! tok) ↔ is_Some (linvs v !! tok)
}.

End IngestionEngine.

Arguments Ret {Ext A} a w.
Arguments Crash {Ext A} f w.

(** ** A test double for the collaborators *)

(** An extent list that keeps the samples it accepted.  The value of a
    sample scripts the outcome of its append: [1] asks for a flush, [2] is a
    late write, [3] a bad id, anything else is plain [OK].  Its roots are the
    timestamps it holds.  The parser double accepts every non-empty name as
    already canonical. *)
Module Double.

Definition append (ts v : Z) (t : list (Z * Z)) : NBTreeAppendResult * list (Z * Z) :=
  if decide (v = 1) then (OK_FLUSH_NEEDED, t ++ [(ts, v)])
  else if decide (v = 2) then (FAIL_LATE_WRITE, t)
  else if decide (v = 3) then (FAIL_BAD_ID, t)
  else (OK, t ++ [(ts, v)]).

Definition normal_form (raw : string) : aku_Status * string :=
  if decide (raw = EmptyString) then (AKU_EBAD_DATA, raw) else (AKU_SUCCESS, raw).

#[global] Instance collaborators : Collaborators := {|
  NBTreeExtentsList := list (Z * Z);
  nbtree_new := λ _ _, [];
  nbtree_append := append;
  nbtree_get_roots := λ t, t.*1;
  to_normal_form := normal_form
|}.

End Double.

(** ** A run with two sessions and one series *)

(** Scenario B of the specification on the test double: two sessions are
    created, session [0] registers the series ["abc"], which gets id [1],
    and writes to it, which makes session [0] its owner. *)
Definition demo_sample (id ts v : Z) : aku_Sample :=
  mk_sample id ts AKU_PAYLOAD_FLOAT v.

Definition demo_block (samples : list (Z * Z)) (refs : nat) : SharedBlock :=
  @mk_block Double.collaborators samples refs.

Definition demo_start : World := initial_world MetadataStorage.empty.

Definition created (w : World) : World :=
  match TreeRegistry_create_session w with
  | Some (_, w') => w'
  | None => w
  end.

Definition demo_two_sessions : World := created (created demo_start).

Definition demo_registered : World :=
  result_world
    (IngestionSession_init_series_id 0%nat "abc" (demo_sample 0 0 0) demo_two_sessions).

Definition demo_owned : World :=
  result_world (IngestionSession_write 0%nat (demo_sample 1 10 0) demo_registered).

(** The owner has called [close] but still exists. *)
Definition demo_owner_closed : World := IngestionSession_close 0%nat demo_owned.

(** The registry has been destroyed while session [0] still owns the series. *)
Definition demo_torn_down : World := TreeRegistry_destructor demo_owned.

(** The registry of the run once session [0] owns the series. *)
Definition demo_registry : TreeRegistry :=
  default (new_registry MetadataStorage.empty) (registry demo_owned).

(** A registry with one buffered rescue point list. *)
Definition demo_buffered : TreeRegistry :=
  TreeRegistry_update_rescue_points 1 [170; 187] (new_registry MetadataStorage.empty).


(** * Properties *)

Section Properties.

Context `{Ext : Collaborators}.

Implicit Types (w : World) (reg : TreeRegistry) (s : IngestionSession)
  (sample : aku_Sample) (hp : list SharedBlock) (v : View).

(** ** Setters *)

Lemma set_heap_same w : set_heap (heap w) w = w.
Proof. by destruct w. Qed.

Lemma set_registry_same w reg : registry w = Some reg → set_registry (Some reg) w = w.
Proof. destruct w; simpl; by intros ->. Qed.

(** ** The invariant is kept by every change of the view *)

Lemma foldr_alter_pred_notin (l : list nat) (cs : list nat) (h : nat) :
  h ∉ l → foldr (alter pred) cs l !! h = cs !! h.
Proof.
  induction l as [|x l IH]; simpl; [done|].
  intros Hnot. apply not_elem_of_cons in Hnot as [Hne Hnot].
  rewrite list_lookup_alter_ne by done. by apply IH.
Qed.

Lemma foldr_alter_pred_length (l : list nat) (cs : list nat) :
  length (foldr (alter pred) cs l) = length cs.
Proof. induction l; simpl; [done|]. by rewrite length_alter. Qed.

Ltac destruct_ok H :=
  destruct H as [Hsingle Hheld Hext Hexcl Hbound Hinj Hfresh Hnodup
                 Hbij Hrange Hnext Hfwd Hbwd Hdom].

Lemma view_ok_grant v tok c id h :
  view_ok v →
  caches v !! tok = Some c → c !! id = None →
  tbl v !! id = Some h → counts v !! h = Some 1%nat →
  view_ok (mk_view (alter S h (counts v)) (tbl v)
                   (<[tok := <[id := h]> c]> (caches v)) (ext v) (next_id v)
                   (gtable v) (ginv v) (ltables v) (linvs v)).
Proof.
  intros Hok Htok Hmiss Htbl Hcnt.
  assert (Hnobody : ∀ tok' c' id' h', caches v !! tok' = Some c' → c' !! id' = Some h' → h' ≠ h).
  { intros tok' c' id' h' Hc' Hh' ->.
    destruct (own_held _ Hok _ _ _ _ Hc' Hh') as (_ & n & Hn & Hne). congruence. }
  assert (Hnoid : ∀ tok' c', caches v !! tok' = Some c' → c' !! id = None).
  { intros tok' c' Hc'. destruct (c' !! id) as [h'|] eqn:Hh'; [|done].
    destruct (own_held _ Hok _ _ _ _ Hc' Hh') as (Ht & _).
    exfalso. eapply Hnobody; eauto. congruence. }
  destruct_ok Hok. constructor; simpl; try done.
  - intros tok1 tok2 c1 c2 id'.
    rewrite !lookup_insert. repeat case_decide; subst; try done.
    + intros [= <-] Hc2. rewrite lookup_insert. case_decide; subst.
      * intros _ [x Hx]. rewrite (Hnoid _ _ Hc2) in Hx. done.
      * intros H1 H2. eapply Hsingle; eauto.
    + intros Hc1 [= <-]. rewrite lookup_insert. case_decide; subst.
      * intros [x Hx]. rewrite (Hnoid _ _ Hc1) in Hx. done.
      * intros H1 H2. eapply Hsingle; eauto.
    + eauto.
  - intros tok' c' id' h'. rewrite lookup_insert. case_decide; subst.
    + intros [= <-]. rewrite lookup_insert. case_decide; subst.
      * intros [= <-]. split; [done|]. exists 2%nat.
        rewrite list_lookup_alter_eq, Hcnt. done.
      * intros Hh'. destruct (Hheld _ _ _ _ Htok Hh') as (? & n & ? & ?).
        split; [done|]. exists n. rewrite list_lookup_alter_ne; [done|].
        intros <-. congruence.
    + intros Hc' Hh'. destruct (Hheld _ _ _ _ Hc' Hh') as (? & n & ? & ?).
      split; [done|]. exists n. rewrite list_lookup_alter_ne; [done|].
      intros <-. congruence.
  - intros h' Hin. destruct (Hext _ Hin) as (? & n & ? & ?).
    split; [done|]. exists n. rewrite list_lookup_alter_ne; [done|].
    intros <-. congruence.
  - intros tok' c' id' h'. rewrite lookup_insert. case_decide; subst.
    + intros [= <-]. rewrite lookup_insert. case_decide; subst.
      * intros [= <-] Hin. destruct (Hext _ Hin) as (_ & n & ? & ?). congruence.
      * eauto.
    + eauto.
  - intros id' h' Hh'. rewrite length_alter. eauto.
Qed.

Lemma view_ok_grant_ext v id h :
  view_ok v → tbl v !! id = Some h → counts v !! h = Some 1%nat →
  view_ok (mk_view (alter S h (counts v)) (tbl v) (caches v) (h :: ext v)
                   (next_id v) (gtable v) (ginv v) (ltables v) (linvs v)).
Proof.
  intros Hok Htbl Hcnt. destruct_ok Hok. constructor; simpl; try done.
  - intros tok c id' h' Hc Hh'.
    destruct (Hheld _ _ _ _ Hc Hh') as (? & n & ? & ?).
    split; [done|]. exists n. rewrite list_lookup_alter_ne; [done|].
    intros <-. congruence.
  - intros h' [->|Hin]%elem_of_cons.
    + split; [by exists id|]. exists 2%nat. by rewrite list_lookup_alter_eq, Hcnt.
    + destruct (Hext _ Hin) as (? & n & ? & ?).
      split; [done|]. exists n. rewrite list_lookup_alter_ne; [done|].
      intros <-. congruence.
  - intros tok c id' h' Hc Hh' [->|Hin]%elem_of_cons.
    + destruct (Hheld _ _ _ _ Hc Hh') as (? & n & ? & ?). congruence.
    + by eapply Hexcl.
  - intros id' h' Hh'. rewrite length_alter. eauto.
  - apply NoDup_cons. split; [|done].
    intros Hin. destruct (Hext _ Hin) as (_ & n & ? & ?). congruence.
Qed.

Lemma view_ok_release_ext v ex1 h ex2 :
  view_ok v → ext v = ex1 ++ h :: ex2 →
  view_ok (mk_view (alter pred h (counts v)) (tbl v) (caches v) (ex1 ++ ex2)
                   (next_id v) (gtable v) (ginv v) (ltables v) (linvs v)).
Proof.
  intros Hok Hex. destruct_ok Hok.
    assert (Hh : h ∈ ext v).
  { rewrite Hex. apply elem_of_app. right. by left. }
  assert (Hsub : ∀ x, x ∈ ex1 ++ ex2 → x ∈ ext v ∧ x ≠ h).
  { intros x Hx. rewrite Hex in Hnodup |- *.
    apply NoDup_app in Hnodup as (_ & Hdisj & [Hnot _]%NoDup_cons).
    apply elem_of_app in Hx as [Hx|Hx].
    - split; [apply elem_of_app; by left|]. intros ->. apply (Hdisj _ Hx). by left.
    - split; [apply elem_of_app; right; by right|]. by intros ->. }
  constructor; simpl; try done.
  - intros tok c id' h' Hc Hh'.
    destruct (Hheld _ _ _ _ Hc Hh') as (? & n & ? & ?).
    split; [done|]. exists n. rewrite list_lookup_alter_ne; [done|].
    intros <-. by eapply Hexcl.
  - intros h' Hin. destruct (Hsub _ Hin) as [Hin' Hne].
    destruct (Hext _ Hin') as (? & n & ? & ?).
    split; [done|]. exists n. by rewrite list_lookup_alter_ne.
  - intros tok c id' h' Hc Hh' Hin. destruct (Hsub _ Hin) as [Hin' _].
    by eapply Hexcl.
  - intros id' h' Hh'. rewrite length_alter. eauto.
  - rewrite Hex in Hnodup. apply NoDup_app in Hnodup as (? & Hdisj & [? ?]%NoDup_cons).
    apply NoDup_app. split_and!; try done.
    intros x Hx Hx2. apply (Hdisj _ Hx). by right.
Qed.

Lemma view_ok_create v ptr :
  view_ok v → caches v !! ptr = None →
  view_ok (mk_view (counts v) (tbl v) (<[ptr := ∅]> (caches v)) (ext v)
                   (next_id v) (gtable v) (ginv v)
                   (<[ptr := ∅]> (ltables v)) (<[ptr := ∅]> (linvs v))).
Proof.
  intros Hok Hfresh'. destruct_ok Hok. constructor; simpl; try done.
  - intros tok1 tok2 c1 c2 id. rewrite !lookup_insert.
    repeat case_decide; subst; try done.
    + intros [= <-] _ [x Hx]. by rewrite lookup_empty in Hx.
    + intros _ [= <-] _ [x Hx]. by rewrite lookup_empty in Hx.
    + eauto.
  - intros tok c id h. rewrite lookup_insert. case_decide; subst; [|eauto].
    intros [= <-]. by rewrite lookup_empty.
  - intros tok c id h. rewrite lookup_insert. case_decide; subst; [|eauto].
    intros [= <-]. by rewrite lookup_empty.
  - intros tok lt n i. rewrite lookup_insert. case_decide; subst; [|eauto].
    intros [= <-]. by rewrite lookup_empty.
  - intros tok li n i. rewrite lookup_insert. case_decide; subst; [|eauto].
    intros [= <-]. by rewrite lookup_empty.
  - intros tok. rewrite !lookup_insert. case_decide; subst; [|eauto].
    split; eauto.
Qed.

Lemma view_ok_delete v tok c :
  view_ok v → caches v !! tok = Some c →
  view_ok (mk_view (foldr (alter pred) (counts v) ((map_to_list c).*2)) (tbl v)
                   (delete tok (caches v)) (ext v) (next_id v) (gtable v) (ginv v)
                   (delete tok (ltables v)) (delete tok (linvs v))).
Proof.
  intros Hok Htok. destruct_ok Hok.
  assert (Hrange' : ∀ h, h ∈ (map_to_list c).*2 → ∃ id, c !! id = Some h).
  { intros h ([id h'] & -> & Hin)%list_elem_of_fmap.
    exists id. by apply elem_of_map_to_list. }
  constructor; simpl; try done.
  - intros tok1 tok2 c1 c2 id. rewrite !lookup_delete.
    repeat case_decide; subst; try done. eauto.
  - intros tok' c' id h. rewrite lookup_delete. case_decide; subst; [done|].
    intros Hc' Hh. destruct (Hheld _ _ _ _ Hc' Hh) as (Ht & n & ? & ?).
    split; [done|]. exists n. rewrite foldr_alter_pred_notin; [done|].
    intros [id' Hid']%Hrange'.
    destruct (Hheld _ _ _ _ Htok Hid') as (Ht' & _).
    assert (id' = id) as -> by (by eapply Hinj).
    apply H. eapply Hsingle; eauto.
  - intros h Hin. destruct (Hext _ Hin) as (? & n & ? & ?).
    split; [done|]. exists n. rewrite foldr_alter_pred_notin; [done|].
    intros [id' Hid']%Hrange'. by eapply Hexcl.
  - intros tok' c' id h. rewrite lookup_delete. case_decide; subst; [done|]. eauto.
  - intros id h Hh. rewrite foldr_alter_pred_length. eauto.
  - intros tok' lt n i. rewrite lookup_delete. case_decide; subst; [done|]. eauto.
  - intros tok' li n i. rewrite lookup_delete. case_decide; subst; [done|]. eauto.
  - intros tok'. rewrite !lookup_delete. case_decide; subst; [|eauto].
    split; intros [? [=]].
Qed.

Lemma view_ok_register v name :
  view_ok v → default 0 (gtable v !! name) = 0 →
  view_ok (mk_view (counts v ++ [1%nat])
                   (<[next_id v := length (counts v)]> (tbl v))
                   (caches v) (ext v) (next_id v + 1)
                   (<[name := next_id v]> (gtable v))
                   (<[next_id v := name]> (ginv v)) (ltables v) (linvs v)).
Proof.
  intros Hok Hnew. destruct_ok Hok.
  assert (Hname : gtable v !! name = None).
  { destruct (gtable v !! name) as [i|] eqn:Hi; [|done].
    simpl in Hnew. subst. apply Hrange in Hi. lia. }
  assert (Hid : ginv v !! next_id v = None).
  { destruct (ginv v !! next_id v) as [n|] eqn:Hn; [|done].
    apply Hbij, Hrange in Hn. lia. }
  assert (Htb : tbl v !! next_id v = None).
  { destruct (tbl v !! next_id v) as [h|] eqn:Hh; [|done].
    apply Hfresh in Hh. lia. }
  constructor; simpl; try done.
  - intros tok c id h Hc Hh. destruct (Hheld _ _ _ _ Hc Hh) as (Ht & n & Hn & ?).
    split.
    + rewrite lookup_insert_ne; [done|]. intros <-. congruence.
    + exists n. split; [|done]. by apply lookup_app_l_Some.
  - intros h Hin. destruct (Hext _ Hin) as ([id Ht] & n & Hn & ?).
    split.
    + exists id. rewrite lookup_insert_ne; [done|]. intros <-. congruence.
    + exists n. split; [|done]. by apply lookup_app_l_Some.
  - intros id h. rewrite lookup_insert, length_app. simpl. case_decide; subst.
    + intros [= <-]. lia.
    + intros Hh%Hbound. lia.
  - intros id1 id2 h. rewrite !lookup_insert. repeat case_decide; subst; try done.
    + intros [= <-] Hh%Hbound. lia.
    + intros Hh%Hbound [= <-]. lia.
    + eauto.
  - intros id h. rewrite lookup_insert. case_decide; subst; [lia|].
    intros Hh%Hfresh. lia.
  - intros n i. rewrite !lookup_insert. repeat case_decide; subst.
    + done.
    + split; [by intros [= <-]|]. intros Hi%Hbij. congruence.
    + split; [intros Hn; apply Hrange in Hn; lia|]. by intros [= <-].
    + apply Hbij.
  - intros n i. rewrite lookup_insert. case_decide; subst.
    + intros [= <-]. lia.
    + intros Hi%Hrange. lia.
  - lia.
  - intros tok lt n i Hlt Hn. rewrite lookup_insert_ne; [eauto|].
    intros <-. specialize (Hfwd _ _ _ _ Hlt Hn). congruence.
  - intros tok li n i Hli Hn. rewrite lookup_insert_ne; [eauto|].
    intros <-. specialize (Hbwd _ _ _ _ Hli Hn). congruence.
Qed.

Lemma view_ok_mirror v tok name id lt li :
  view_ok v →
  ltables v !! tok = Some lt → linvs v !! tok = Some li →
  gtable v !! name = Some id → ginv v !! id = Some name →
  view_ok (mk_view (counts v) (tbl v) (caches v) (ext v) (next_id v)
                   (gtable v) (ginv v)
                   (<[tok := <[name := id]> lt]> (ltables v))
                   (<[tok := <[id := name]> li]> (linvs v))).
Proof.
  intros Hok Hlt Hli Hg Hgi. destruct_ok Hok. constructor; simpl; try done.
  - intros tok' lt' n i. rewrite lookup_insert. case_decide; subst; [|eauto].
    intros [= <-]. rewrite lookup_insert. case_decide; subst; [by intros [= <-]|eauto].
  - intros tok' li' n i. rewrite lookup_insert. case_decide; subst; [|eauto].
    intros [= <-]. rewrite lookup_insert. case_decide; subst; [by intros [= <-]|eauto].
  - intros tok'. rewrite !lookup_insert. case_decide; subst; [|eauto].
    split; eauto.
Qed.

Lemma view_ok_VStep v v' : view_ok v → VStep v v' → view_ok v'.
Proof.
  intros Hok Hstep. destruct Hstep.
  - by eapply view_ok_grant.
  - by eapply view_ok_grant_ext.
  - by eapply view_ok_release_ext.
  - by eapply view_ok_create.
  - by eapply view_ok_delete.
  - by eapply view_ok_register.
  - by eapply view_ok_mirror.
Qed.

Lemma view_ok_rtc v v' : view_ok v → rtc VStep v v' → view_ok v'.
Proof. intros Hok Hsteps. induction Hsteps; eauto using view_ok_VStep. Qed.

(** ** Every call refines a change of the view *)

Lemma same_shape_refl w : same_shape w w.
Proof. by unfold same_shape. Qed.

Lemma same_shape_trans w1 w2 w3 : same_shape w1 w2 → same_shape w2 w3 → same_shape w1 w3.
Proof. unfold same_shape. intros (-> & -> & -> & ->) (-> & -> & -> & ->). done. Qed.

Lemma same_shape_view w w' : same_shape w w' → view_of w' = view_of w.
Proof. unfold same_shape, view_of. intros (-> & -> & -> & ->). done. Qed.

Lemma append_at_shape h sample w r w' :
  append_at h sample w = Ret r w' → same_shape w w'.
Proof.
  unfold append_at. destruct (heap w !! h) as [b|] eqn:Hb; [|done].
  destruct (nbtree_append _ _ _) as [r' tree]. intros [= <- <-].
  unfold same_shape. simpl. split_and!; try done.
  rewrite list_fmap_insert. simpl. apply list_insert_id.
  by rewrite list_lookup_fmap, Hb.
Qed.

Lemma receive_broadcast_shape tok sample w r w' :
  IngestionSession_receive_broadcast tok sample w = Ret r w' → same_shape w w'.
Proof.
  unfold IngestionSession_receive_broadcast.
  destruct (sessions w !! tok) as [s|]; [|done].
  destruct (cache_ s !! paramid sample) as [h|].
  - destruct (append_at h sample w) as [r' w1|] eqn:Happ; simpl; [|done].
    intros [= <- <-]. by eapply append_at_shape.
  - intros [= <- <-]. apply same_shape_refl.
Qed.

Lemma broadcast_loop_shape (active : list nat) sample source w r w' :
  broadcast_loop active sample source w = Ret r w' → same_shape w w'.
Proof.
  revert w. induction active as [|tok rest IH]; intros w; simpl.
  - intros [= <- <-]. apply same_shape_refl.
  - destruct (sessions w !! tok) as [s|]; [|by apply IH].
    destruct (decide (tok ≠ source)); [|by apply IH].
    destruct (IngestionSession_receive_broadcast tok sample w) as [[stop res] w1|] eqn:Hrb;
      simpl; [|done].
    apply receive_broadcast_shape in Hrb.
    destruct stop.
    + by intros [= <- <-].
    + intros Hrest. eapply same_shape_trans; [done|]. by eapply IH.
Qed.

Lemma view_of_Some w v : view_of w = Some v → ∃ reg, registry w = Some reg.
Proof. unfold view_of. destruct (registry w); [eauto|done]. Qed.

Lemma view_of_update_rescue_points w reg id (addrlist : list Z) :
  registry w = Some reg →
  view_of (set_registry (Some (TreeRegistry_update_rescue_points id addrlist reg)) w)
  = view_of w.
Proof. intros Hreg. unfold view_of. simpl. by rewrite Hreg. Qed.

Lemma fmap_insert_same {A B : Type} (f : A → B) (m : gmap nat A) (i : nat) (x y : A) :
  m !! i = Some x → f y = f x → f <$> <[i := y]> m = f <$> m.
Proof.
  intros Hi Hf. rewrite fmap_insert. apply insert_id.
  by rewrite lookup_fmap, Hi, Hf.
Qed.

Lemma fmap_acquire_ref h hp :
  use_count <$> acquire_ref h hp = alter S h (use_count <$> hp).
Proof. unfold acquire_ref. apply list_fmap_alter, Forall_forall. done. Qed.

Lemma fmap_release_ref h hp :
  use_count <$> release_ref h hp = alter pred h (use_count <$> hp).
Proof. unfold release_ref. apply list_fmap_alter, Forall_forall. done. Qed.

Lemma fmap_release_all (c : gmap Z nat) hp :
  use_count <$> release_all c hp
  = foldr (alter pred) (use_count <$> hp) ((map_to_list c).*2).
Proof.
  unfold release_all. induction ((map_to_list c).*2) as [|h l IH]; simpl; [done|].
  by rewrite fmap_release_ref, IH.
Qed.

Lemma is_available_count (e : RegistryEntry) hp :
  RegistryEntry_is_available e hp = true →
  (use_count <$> hp) !! roots_ e = Some 1%nat.
Proof.
  unfold RegistryEntry_is_available. rewrite list_lookup_fmap.
  destruct (hp !! roots_ e) as [b|]; [|done].
  intros Hb%bool_decide_eq_true. simpl. by rewrite Hb.
Qed.

Lemma write_view self sample w status w' v :
  IngestionSession_write self sample w = Ret status w' →
  view_of w = Some v →
  ∃ v', view_of w' = Some v' ∧ rtc VStep v v'.
Proof.
  intros Hwrite Hv. unfold IngestionSession_write in Hwrite.
  destruct (sessions w !! self) as [s|] eqn:Hs; [|done].
  case_decide.
  { injection Hwrite as <- <-. by exists v. }
  destruct (cache_ s !! paramid sample) as [h|] eqn:Hit.
  - (* the id is cached *)
    unfold write_dispatch in Hwrite.
    destruct (append_at h sample w) as [r w1|] eqn:Happ; simpl in Hwrite; [|done].
    apply append_at_shape in Happ. pose proof Happ as (Hreg1 & _).
    apply same_shape_view in Happ.
    unfold write_interpret in Hwrite. rewrite decide_True in Hwrite by done.
    destruct r.
    + injection Hwrite as <- <-. exists v. by rewrite Happ.
    + destruct (heap w1 !! h); [|done].
      destruct (registry w1) as [reg1|] eqn:Hr1; injection Hwrite as <- <-.
      * exists v. by rewrite view_of_update_rescue_points, Happ.
      * exists v. by rewrite Happ.
    + injection Hwrite as <- <-. exists v. by rewrite Happ.
    + injection Hwrite as <- <-. exists v. by rewrite Happ.
  - (* the id is not cached *)
    destruct (view_of_Some _ _ Hv) as [reg Hreg].
    unfold write_dispatch in Hwrite. rewrite Hreg in Hwrite.
    unfold TreeRegistry_try_acquire in Hwrite.
    destruct (table_ reg !! paramid sample) as [e|] eqn:He.
    + unfold RegistryEntry_try_acquire in Hwrite.
      destruct (RegistryEntry_is_available e (heap w)) eqn:Hav.
      * (* acquired *)
        simpl in Hwrite.
        match type of Hwrite with
        | rbind (rbind (append_at _ _ ?w1) _) _ = _ =>
            destruct (append_at (roots_ e) sample w1) as [r w2|] eqn:Happ;
              simpl in Hwrite; [|done]
        end.
        apply append_at_shape, same_shape_view in Happ.
        assert (Hst : w' = w2).
        { unfold write_interpret in Hwrite. rewrite decide_True in Hwrite by done.
          destruct r; try done; by injection Hwrite. }
        subst w'. rewrite Happ.
        unfold view_of in Hv |- *. simpl. rewrite Hreg in Hv |- *.
        injection Hv as <-. eexists. split; [done|].
        apply rtc_once.
        rewrite (fmap_insert_same (λ s, SeriesMatcher.table (local_matcher_ s)) _ _ s) by done.
        rewrite (fmap_insert_same (λ s, SeriesMatcher.inv_table (local_matcher_ s)) _ _ s) by done.
        rewrite fmap_insert, fmap_acquire_ref. simpl.
        eapply (vs_grant (mk_view _ _ _ _ _ _ _ _ _) self (cache_ s) (paramid sample) (roots_ e)); simpl.
        -- by rewrite lookup_fmap, Hs.
        -- done.
        -- by rewrite lookup_fmap, He.
        -- by apply is_available_count.
      * (* busy: broadcast *)
        simpl in Hwrite. rewrite set_heap_same in Hwrite.
        unfold TreeRegistry_broadcast_sample in Hwrite.
        destruct (broadcast_loop (active_ reg) sample self w) as [r w1|] eqn:Hb;
          simpl in Hwrite; [|done].
        apply broadcast_loop_shape, same_shape_view in Hb.
        assert (Hst : w' = w1).
        { unfold write_interpret in Hwrite. rewrite decide_True in Hwrite by done.
          destruct r; try done; by injection Hwrite. }
        subst w'. exists v. by rewrite Hb.
    + simpl in Hwrite. rewrite set_heap_same in Hwrite.
      unfold write_interpret in Hwrite. rewrite decide_False in Hwrite by done.
      injection Hwrite as <- <-. by exists v.
Qed.

Lemma match_nonzero (name : string) (m : SeriesMatcher.t) :
  SeriesMatcher.match_ name m ≠ 0 →
  SeriesMatcher.table m !! name = Some (SeriesMatcher.match_ name m).
Proof.
  unfold SeriesMatcher.match_. destruct (SeriesMatcher.table m !! name); simpl; done.
Qed.

Lemma set_session_same tok s w : sessions w !! tok = Some s → set_session tok s w = w.
Proof.
  intros Hs. unfold set_session, set_sessions. rewrite insert_id by done. by destruct w.
Qed.

Lemma init_series_id_view tok raw sample w r w' v :
  IngestionSession_init_series_id tok raw sample w = Ret r w' →
  view_of w = Some v → view_ok v →
  ∃ v', view_of w' = Some v' ∧ rtc VStep v v'.
Proof.
  intros Hinit Hv Hok. unfold IngestionSession_init_series_id in Hinit.
  destruct (sessions w !! tok) as [s|] eqn:Hs; [|done].
  destruct (to_normal_form raw) as [status name].
  case_decide.
  { injection Hinit as <- <-. by exists v. }
  case_decide as Hlocal; [|injection Hinit as <- <-; by exists v].
  destruct (view_of_Some _ _ Hv) as [reg Hreg]. rewrite Hreg in Hinit.
  unfold TreeRegistry_init_series_id in Hinit.
  unfold view_of in Hv. rewrite Hreg in Hv. injection Hv as <-.
  case_decide as Hglobal; simpl in Hinit; injection Hinit as <- <-.
  - (* a new series *)
    eexists. split.
    { unfold view_of. simpl. done. }
    eapply rtc_l; [eapply (vs_register _ name); exact Hglobal|]. simpl.
    apply rtc_once.
    rewrite (fmap_insert_same cache_ _ _ s) by done.
    rewrite !fmap_insert, fmap_app, length_fmap. simpl.
    eapply (vs_mirror (mk_view _ _ _ _ _ _ _ _ _) tok name _
              (SeriesMatcher.table (local_matcher_ s))
              (SeriesMatcher.inv_table (local_matcher_ s))); simpl.
    + by rewrite lookup_fmap, Hs.
    + by rewrite lookup_fmap, Hs.
    + apply lookup_insert_eq.
    + apply lookup_insert_eq.
  - (* known to the registry *)
    rewrite set_heap_same. eexists. split.
    { unfold view_of. simpl. done. }
    apply rtc_once.
    rewrite (fmap_insert_same cache_ _ _ s) by done.
    rewrite !fmap_insert. simpl.
    pose proof (match_nonzero _ _ Hglobal) as Hg.
    eapply (vs_mirror (mk_view _ _ _ _ _ _ _ _ _) tok name _
              (SeriesMatcher.table (local_matcher_ s))
              (SeriesMatcher.inv_table (local_matcher_ s))); simpl.
    + by rewrite lookup_fmap, Hs.
    + by rewrite lookup_fmap, Hs.
    + done.
    + by apply (names_bij _ Hok).
Qed.

Lemma get_series_name_view tok id (buffer : list ascii) (buffer_size : Z) w r w' v :
  IngestionSession_get_series_name tok id buffer buffer_size w = Ret r w' →
  view_of w = Some v → view_ok v →
  ∃ v', view_of w' = Some v' ∧ rtc VStep v v'.
Proof.
  intros Hget Hv Hok. unfold IngestionSession_get_series_name in Hget.
  destruct (sessions w !! tok) as [s|] eqn:Hs; [|done].
  destruct (SeriesMatcher.id2str id (local_matcher_ s)) as [name|].
  { destruct (memcpy buffer name); [|done]. injection Hget as <- <-. by exists v. }
  destruct (view_of_Some _ _ Hv) as [reg Hreg]. rewrite Hreg in Hget.
  unfold TreeRegistry_get_series_name in Hget.
  unfold SeriesMatcher.id2str in Hget.
  destruct (SeriesMatcher.inv_table (global_matcher_ reg) !! id) as [str|] eqn:Hstr.
  - assert (Hw' : w' = set_session tok
                         (mk_session (SeriesMatcher._add str id (local_matcher_ s)) (cache_ s)) w).
    { case_decide; [by injection Hget|].
      destruct (memcpy buffer str); [by injection Hget|done]. }
    subst w'. clear Hget.
    unfold view_of in Hv |- *. simpl. rewrite Hreg in Hv |- *. injection Hv as <-.
    eexists. split; [done|]. apply rtc_once.
    rewrite (fmap_insert_same cache_ _ _ s) by done.
    rewrite !fmap_insert. simpl.
    eapply (vs_mirror (mk_view _ _ _ _ _ _ _ _ _) tok str id
              (SeriesMatcher.table (local_matcher_ s))
              (SeriesMatcher.inv_table (local_matcher_ s))); simpl.
    + by rewrite lookup_fmap, Hs.
    + by rewrite lookup_fmap, Hs.
    + by apply (names_bij _ Hok).
    + done.
  - injection Hget as <- <-. exists v. split; [|done].
    rewrite set_session_same; [done|]. rewrite Hs. by destruct s.
Qed.

Lemma create_session_view w ptr w' v :
  TreeRegistry_create_session w = Some (ptr, w') →
  view_of w = Some v →
  ∃ v', view_of w' = Some v' ∧ rtc VStep v v'.
Proof.
  unfold TreeRegistry_create_session, view_of.
  destruct (registry w) as [reg|]; [|done].
  intros [= <- <-] [= <-]. simpl. eexists. split; [done|].
  apply rtc_once. rewrite !fmap_insert. simpl.
  apply (vs_create (mk_view _ _ _ _ _ _ _ _ _)). simpl.
  rewrite lookup_fmap.
  assert (Hfresh : sessions w !! fresh (dom (sessions w)) = None).
  { apply not_elem_of_dom, is_fresh. }
  by rewrite Hfresh.
Qed.

Lemma close_view tok w : view_of (IngestionSession_close tok w) = view_of w.
Proof.
  unfold IngestionSession_close, view_of.
  destruct (registry w) as [reg|] eqn:Hreg; simpl; [done|]. by rewrite Hreg.
Qed.

Lemma session_deleter_view tok w v :
  view_of w = Some v →
  ∃ v', view_of (session_deleter tok w) = Some v' ∧ rtc VStep v v'.
Proof.
  intros Hv. unfold session_deleter.
  assert (Hss : sessions (IngestionSession_close tok w) = sessions w).
  { unfold IngestionSession_close. by destruct (registry w). }
  assert (Hhp : heap (IngestionSession_close tok w) = heap w).
  { unfold IngestionSession_close. by destruct (registry w). }
  pose proof (close_view tok w) as Hcl. rewrite Hv in Hcl.
  rewrite Hss. destruct (sessions w !! tok) as [s|] eqn:Hs; [|by exists v].
  unfold view_of in Hcl |- *. simpl.
  destruct (registry (IngestionSession_close tok w)) as [reg|]; [|done].
  injection Hcl as <-. rewrite Hss, Hhp. eexists. split; [done|].
  apply rtc_once. rewrite !fmap_delete, fmap_release_all.
  apply (vs_delete (mk_view _ _ _ _ _ _ _ _ _) tok (cache_ s)). simpl.
  by rewrite lookup_fmap, Hs.
Qed.

Lemma try_acquire_view w reg id status entry hp v :
  registry w = Some reg →
  TreeRegistry_try_acquire id reg (heap w) = (status, entry, hp) →
  view_of w = Some v →
  ∃ v', view_of (set_external (option_list entry ++ external w) (set_heap hp w)) = Some v'
        ∧ rtc VStep v v'.
Proof.
  intros Hreg Hacq Hv. unfold TreeRegistry_try_acquire in Hacq.
  unfold view_of in Hv |- *. simpl. rewrite Hreg in Hv |- *. injection Hv as <-.
  eexists. split; [done|].
  destruct (table_ reg !! id) as [e|] eqn:He.
  - unfold RegistryEntry_try_acquire in Hacq.
    destruct (RegistryEntry_is_available e (heap w)) eqn:Hav; injection Hacq as <- <- <-.
    + apply rtc_once. rewrite fmap_acquire_ref. simpl.
      apply (vs_grant_ext (mk_view _ _ _ _ _ _ _ _ _) id (roots_ e)); simpl.
      * by rewrite lookup_fmap, He.
      * by apply is_available_count.
    + done.
  - injection Hacq as <- <- <-. done.
Qed.

Lemma release_view w ex1 h ex2 v :
  external w = ex1 ++ h :: ex2 →
  view_of w = Some v →
  ∃ v', view_of (set_external (ex1 ++ ex2) (set_heap (release_ref h (heap w)) w)) = Some v'
        ∧ rtc VStep v v'.
Proof.
  intros Hex Hv. unfold view_of in Hv |- *. simpl.
  destruct (registry w) as [reg|]; [|done]. injection Hv as <-.
  eexists. split; [done|]. apply rtc_once. rewrite fmap_release_ref.
  by apply (vs_release_ext (mk_view _ _ _ _ _ _ _ _ _)).
Qed.

Lemma sync_view w reg (insert_throws upsert_throws : bool) out reg' :
  registry w = Some reg →
  TreeRegistry_sync_with_metadata_storage insert_throws upsert_throws reg = (out, reg') →
  view_of (set_registry (Some reg') w) = view_of w.
Proof.
  intros Hreg Hsync. unfold view_of. simpl. rewrite Hreg.
  unfold TreeRegistry_sync_with_metadata_storage in Hsync.
  destruct insert_throws, upsert_throws; simpl in Hsync; injection Hsync as <- <-; done.
Qed.

Lemma Step_view w w' v :
  Step w w' → view_of w = Some v → view_ok v →
  ∃ v', view_of w' = Some v' ∧ rtc VStep v v'.
Proof.
  intros Hstep Hv Hok. destruct Hstep.
  - by eapply create_session_view.
  - exists v. by rewrite close_view.
  - by eapply session_deleter_view.
  - by eapply init_series_id_view.
  - by eapply get_series_name_view.
  - by eapply write_view.
  - exists v. split; [|done].
    erewrite same_shape_view; [done|]. by eapply receive_broadcast_shape.
  - by eapply try_acquire_view.
  - by eapply release_view.
  - exists v. by rewrite view_of_update_rescue_points.
  - exists v. by erewrite sync_view.
Qed.

Lemma initial_view_ok (meta : MetadataStorage.t) :
  ∃ v, view_of (initial_world meta) = Some v ∧ view_ok v.
Proof.
  eexists. split; [done|].
  constructor; simpl; try done.
  all: rewrite ?fmap_empty.
  all: try (intros; simplify_map_eq; done).
  - intros h Hin. by apply elem_of_nil in Hin.
  - apply NoDup_nil_2.
Qed.

Lemma steps_view_ok w w' v :
  rtc Step w w' → view_of w = Some v → view_ok v →
  ∃ v', view_of w' = Some v' ∧ view_ok v'.
Proof.
  intros Hsteps. revert v. induction Hsteps as [|w1 w2 w3 Hstep _ IH]; intros v Hv Hok.
  - by exists v.
  - destruct (Step_view _ _ _ Hstep Hv Hok) as (v2 & Hv2 & Hvs).
    eapply IH; [done|]. by eapply view_ok_rtc.
Qed.

Lemma Reachable_view_ok w : Reachable w → ∃ v, view_of w = Some v ∧ view_ok v.
Proof.
  intros [meta Hsteps]. destruct (initial_view_ok meta) as (v0 & Hv0 & Hok0).
  by eapply steps_view_ok.
Qed.

(** ** Registry entry and acquisition *)

Lemma RegistryEntry_try_acquire_busy (e : RegistryEntry) hp entry hp' :
  RegistryEntry_try_acquire e hp = (AKU_EBUSY, entry, hp') → entry = None ∧ hp' = hp.
Proof.
  unfold RegistryEntry_try_acquire.
  destruct (RegistryEntry_is_available e hp); intros [= <- <-]; done.
Qed.

Lemma TreeRegistry_try_acquire_busy id reg hp entry hp' :
  TreeRegistry_try_acquire id reg hp = (AKU_EBUSY, entry, hp') → entry = None ∧ hp' = hp.
Proof.
  unfold TreeRegistry_try_acquire. destruct (table_ reg !! id) as [e|].
  - apply RegistryEntry_try_acquire_busy.
  - intros [=].
Qed.

(** ** Broadcast *)

(** A broadcast over sessions none of which owns the id changes nothing and
    finds no taker. *)
Lemma broadcast_loop_no_owner (active : list nat) sample source w :
  (∀ tok s, tok ∈ active → tok ≠ source → sessions w !! tok = Some s →
            cache_ s !! paramid sample = None) →
  broadcast_loop active sample source w = Ret FAIL_BAD_ID w.
Proof.
  induction active as [|tok rest IH]; intros Hnone; simpl; [done|].
  assert (Hrest : broadcast_loop rest sample source w = Ret FAIL_BAD_ID w).
  { apply IH. intros t s' Hin. apply Hnone. by right. }
  destruct (sessions w !! tok) as [s'|] eqn:Hs; [|done].
  destruct (decide (tok ≠ source)) as [Hne|_]; [|done].
  unfold IngestionSession_receive_broadcast. rewrite Hs.
  rewrite (Hnone tok s'); [done|by left|done|done].
Qed.

(** ** Metadata synchronisation *)

(** C3: when the metadata store throws in [insert_new_names] or in
    [upsert_rescue_points], [sync_with_metadata_storage] ends with that
    exception and the registry's [rescue_points_] buffer is what it was; a
    later sync that succeeds still delivers every buffered entry. *)
Theorem sync_failure_keeps_rescue_points reg (insert_throws upsert_throws : bool) :
  insert_throws = true ∨ upsert_throws = true →
  let failed := TreeRegistry_sync_with_metadata_storage insert_throws upsert_throws reg in
  let retried := TreeRegistry_sync_with_metadata_storage false false failed.2 in
  failed.1 = SyncThrown ∧
  rescue_points_ failed.2 = rescue_points_ reg ∧
  retried.1 = SyncReturned ∧
  ∀ id (R : list Z), rescue_points_ reg !! id = Some R →
    MetadataStorage.rescue_points (metadata_ retried.2) !! id = Some R.
Proof.
  intros Hthrow. unfold TreeRegistry_sync_with_metadata_storage.
  destruct insert_throws; simpl.
  - repeat split; try done. intros id R HR. by apply lookup_union_Some_l.
  - destruct Hthrow as [[=]| ->]; simpl.
    repeat split; try done. intros id R HR. by apply lookup_union_Some_l.
Qed.

(** C8: [update_rescue_points(id, R)] makes [R] the buffered list of [id]
    whatever was buffered before and touches no other id; after it, a
    [sync_with_metadata_storage] that returns leaves [R] in the metadata
    store for [id] and the registry's buffer empty. *)
Theorem update_rescue_points_then_sync reg (id : Z) (R : list Z)
    (insert_throws upsert_throws : bool) reg' :
  TreeRegistry_sync_with_metadata_storage insert_throws upsert_throws
    (TreeRegistry_update_rescue_points id R reg) = (SyncReturned, reg') →
  rescue_points_ (TreeRegistry_update_rescue_points id R reg) !! id = Some R ∧
  (∀ id', id' ≠ id →
     rescue_points_ (TreeRegistry_update_rescue_points id R reg) !! id'
     = rescue_points_ reg !! id') ∧
  MetadataStorage.rescue_points (metadata_ reg') !! id = Some R ∧
  rescue_points_ reg' !! id = None ∧
  rescue_points_ reg' = ∅.
Proof.
  unfold TreeRegistry_sync_with_metadata_storage, TreeRegistry_update_rescue_points.
  destruct insert_throws, upsert_throws; simpl; intros [= <-]; simpl.
  split_and!.
  - apply lookup_insert_eq.
  - intros id' Hne. by apply lookup_insert_ne.
  - apply lookup_union_Some_l, lookup_insert_eq.
  - apply lookup_empty.
  - done.
Qed.

(** C10: [TreeRegistry::init_series_id] on a name the catalog does not know
    puts the new id into [rescue_points_] with an empty address list; the
    buffer is then not empty, a [wait_for_sync_request] that is woken
    returns [AKU_SUCCESS], and the next sync hands the id with the empty
    list to the metadata store: when the store does not throw the sync
    returns and the store holds the empty list for the id, and so it does
    after every sync that returns. *)
Theorem init_series_id_buffers_empty_rescue_points
    (name : string) sample (local_matcher : SeriesMatcher.t) reg hp :
  SeriesMatcher.match_ name (global_matcher_ reg) = 0 →
  let '(status, sample', _, reg', _) :=
    TreeRegistry_init_series_id name sample local_matcher reg hp in
  status = AKU_SUCCESS ∧
  paramid sample' = SeriesMatcher.series_id (global_matcher_ reg) ∧
  rescue_points_ reg' !! paramid sample' = Some [] ∧
  rescue_points_ reg' ≠ ∅ ∧
  TreeRegistry_wait_for_sync_request cv_no_timeout reg' = AKU_SUCCESS ∧
  (TreeRegistry_sync_with_metadata_storage false false reg').1 = SyncReturned ∧
  MetadataStorage.rescue_points
    (metadata_ (TreeRegistry_sync_with_metadata_storage false false reg').2)
    !! paramid sample' = Some [] ∧
  ∀ insert_throws upsert_throws reg'',
    TreeRegistry_sync_with_metadata_storage insert_throws upsert_throws reg'
    = (SyncReturned, reg'') →
    MetadataStorage.rescue_points (metadata_ reg'') !! paramid sample' = Some [].
Proof.
  intros Hnew. unfold TreeRegistry_init_series_id. rewrite Hnew.
  rewrite decide_True by done. simpl.
  set (id := SeriesMatcher.series_id (global_matcher_ reg)).
  assert (Hne : <[id := []]> (rescue_points_ reg) ≠ (∅ : gmap Z (list Z))).
  { apply insert_non_empty. }
  split_and!; try done.
  - apply lookup_insert_eq.
  - unfold TreeRegistry_wait_for_sync_request. simpl. by rewrite decide_False.
  - unfold TreeRegistry_sync_with_metadata_storage. simpl.
    apply lookup_union_Some_l, lookup_insert_eq.
  - intros b1 b2 reg''. unfold TreeRegistry_sync_with_metadata_storage.
    destruct b1, b2; simpl; intros [= <-]; simpl.
    apply lookup_union_Some_l, lookup_insert_eq.
Qed.

(** ** Writes *)

(** With the id in the cache, a flush request publishes the roots of the
    extent list and [write] returns [AKU_SUCCESS]. *)
Lemma write_flush_cached self s sample h (b : SharedBlock) (tree : NBTreeExtentsList)
    reg w :
  sessions w !! self = Some s →
  payload_type sample = AKU_PAYLOAD_FLOAT →
  cache_ s !! paramid sample = Some h →
  heap w !! h = Some b →
  nbtree_append (timestamp sample) (float64 sample) (pointee b) = (OK_FLUSH_NEEDED, tree) →
  registry w = Some reg →
  IngestionSession_write self sample w
  = Ret AKU_SUCCESS
      (set_registry
         (Some (TreeRegistry_update_rescue_points (paramid sample)
                  (nbtree_get_roots tree) reg))
         (set_heap (<[h := mk_block tree (use_count b)]> (heap w)) w)).
Proof.
  intros Hself Hfloat Hhit Hb Happ Hreg.
  unfold IngestionSession_write. rewrite Hself, decide_False by (by intros []).
  rewrite Hhit. unfold write_dispatch, append_at. rewrite Hb, Happ. simpl.
  unfold write_interpret. simpl.
  rewrite list_lookup_insert_eq by (by eapply lookup_lt_Some).
  by rewrite Hreg.
Qed.

(** Without the id in the cache at the start of [write], a flush request
    reaches [it->second] with [it] at the end of the cache, whichever way
    the sample was appended. *)
Lemma write_flush_uncached self s sample w w1 :
  sessions w !! self = Some s →
  payload_type sample = AKU_PAYLOAD_FLOAT →
  cache_ s !! paramid sample = None →
  write_dispatch self s sample None w = Ret (AKU_SUCCESS, OK_FLUSH_NEEDED) w1 →
  IngestionSession_write self sample w = Crash EndIteratorDeref w1.
Proof.
  intros Hself Hfloat Hmiss Hdisp.
  unfold IngestionSession_write. rewrite Hself, decide_False by (by intros []).
  rewrite Hmiss, Hdisp. done.
Qed.

(** C7: when the session at [self] does not own the id, [try_acquire] says
    [AKU_EBUSY], and none of the other sessions that the broadcast reaches
    (registered in [active_] and alive) owns the id, then [broadcast_sample]
    returns [FAIL_BAD_ID] and [write] returns [AKU_ENOT_FOUND], both
    without changing anything. *)
Theorem write_busy_without_owner self s sample reg w entry hp :
  sessions w !! self = Some s →
  payload_type sample = AKU_PAYLOAD_FLOAT →
  cache_ s !! paramid sample = None →
  registry w = Some reg →
  TreeRegistry_try_acquire (paramid sample) reg (heap w) = (AKU_EBUSY, entry, hp) →
  (∀ tok s', tok ∈ active_ reg → tok ≠ self → sessions w !! tok = Some s' →
             cache_ s' !! paramid sample = None) →
  TreeRegistry_broadcast_sample sample self reg w = Ret FAIL_BAD_ID w ∧
  IngestionSession_write self sample w = Ret AKU_ENOT_FOUND w.
Proof.
  intros Hself Hfloat Hmiss Hreg Hbusy Hnone.
  assert (Hb : TreeRegistry_broadcast_sample sample self reg w = Ret FAIL_BAD_ID w).
  { unfold TreeRegistry_broadcast_sample. by apply broadcast_loop_no_owner. }
  split; [done|].
  unfold IngestionSession_write. rewrite Hself, decide_False by (by intros []).
  rewrite Hmiss. unfold write_dispatch. rewrite Hreg, Hbusy.
  destruct (TreeRegistry_try_acquire_busy _ _ _ _ _ Hbusy) as [_ ->].
  rewrite set_heap_same, Hb. simpl. done.
Qed.

(** C9: the id is in the session's [cache_], the append asks for a flush,
    and the registry is gone: [write] returns [AKU_ECLOSED]; the state it
    leaves differs from the one before only in the extent list, which holds
    the sample, and the roots it fetched are stored nowhere. *)
Theorem write_flush_after_teardown_returns_closed self s sample h (b : SharedBlock)
    (tree : NBTreeExtentsList) w :
  sessions w !! self = Some s →
  payload_type sample = AKU_PAYLOAD_FLOAT →
  cache_ s !! paramid sample = Some h →
  heap w !! h = Some b →
  nbtree_append (timestamp sample) (float64 sample) (pointee b) = (OK_FLUSH_NEEDED, tree) →
  registry w = None →
  IngestionSession_write self sample w
  = Ret AKU_ECLOSED (set_heap (<[h := mk_block tree (use_count b)]> (heap w)) w).
Proof.
  intros Hself Hfloat Hhit Hb Happ Hreg.
  unfold IngestionSession_write. rewrite Hself, decide_False by (by intros []).
  rewrite Hhit. unfold write_dispatch, append_at. rewrite Hb, Happ. simpl.
  unfold write_interpret. simpl.
  rewrite list_lookup_insert_eq by (by eapply lookup_lt_Some).
  by rewrite Hreg.
Qed.

(** ** Ownership *)

Lemma RegistryEntry_try_acquire_spec (e : RegistryEntry) hp :
  ((∃ b, hp !! roots_ e = Some b ∧ use_count b = 1%nat) →
   RegistryEntry_try_acquire e hp
   = (AKU_SUCCESS, Some (roots_ e), acquire_ref (roots_ e) hp)) ∧
  (¬ (∃ b, hp !! roots_ e = Some b ∧ use_count b = 1%nat) →
   RegistryEntry_try_acquire e hp = (AKU_EBUSY, None, hp)).
Proof.
  unfold RegistryEntry_try_acquire, RegistryEntry_is_available.
  destruct (hp !! roots_ e) as [b|].
  - case_bool_decide as Hb.
    + split; [done|]. intros []. eauto.
    + split; [|done]. intros (b' & [= <-] & ?). done.
  - split; [|done]. intros (b' & [=] & _).
Qed.

(** What the invariant says about a handle in a session's cache. *)
Lemma held_handle w v reg tok s id h :
  view_of w = Some v → view_ok v → registry w = Some reg →
  sessions w !! tok = Some s → cache_ s !! id = Some h →
  ∃ e b, table_ reg !! id = Some e ∧ roots_ e = h ∧
         heap w !! h = Some b ∧ use_count b ≠ 1%nat.
Proof.
  intros Hv Hok Hreg Hs Hh. unfold view_of in Hv. rewrite Hreg in Hv.
  injection Hv as <-.
  destruct (own_held _ Hok tok (cache_ s) id h) as (Ht & n & Hn & Hne); simpl.
  { by rewrite lookup_fmap, Hs. }
  { done. }
  simpl in Ht, Hn. rewrite lookup_fmap in Ht. rewrite list_lookup_fmap in Hn.
  destruct (table_ reg !! id) as [e|]; [|done]. injection Ht as Ht.
  destruct (heap w !! h) as [b|]; [|done]. injection Hn as Hn.
  exists e, b. split_and!; try done. congruence.
Qed.

Lemma single_holder w v tok1 tok2 s1 s2 id :
  view_of w = Some v → view_ok v →
  sessions w !! tok1 = Some s1 → sessions w !! tok2 = Some s2 →
  is_Some (cache_ s1 !! id) → is_Some (cache_ s2 !! id) → tok1 = tok2.
Proof.
  intros Hv Hok Hs1 Hs2 H1 H2.
  destruct (view_of_Some _ _ Hv) as [reg Hreg].
  unfold view_of in Hv. rewrite Hreg in Hv. injection Hv as <-.
  eapply (own_single _ Hok tok1 tok2 (cache_ s1) (cache_ s2) id); simpl; try done.
  - by rewrite lookup_fmap, Hs1.
  - by rewrite lookup_fmap, Hs2.
Qed.

(** C4: in every state reachable by calls of any sessions (with [write],
    [_receive_broadcast], [close], [try_acquire] among them), an id is in
    the [cache_] of at most one session; [RegistryEntry::try_acquire]
    returns [AKU_SUCCESS] with the handle exactly when the entry's
    reference is the only strong reference to the extent list, and
    [AKU_EBUSY] with the empty handle otherwise; and in a reachable state
    it succeeds only for an id that no session has in its [cache_]. *)
Theorem single_writer w :
  Reachable w →
  (∀ id tok1 tok2 s1 s2,
     sessions w !! tok1 = Some s1 → sessions w !! tok2 = Some s2 →
     is_Some (cache_ s1 !! id) → is_Some (cache_ s2 !! id) → tok1 = tok2) ∧
  (∀ (e : RegistryEntry) hp,
     ((∃ b, hp !! roots_ e = Some b ∧ use_count b = 1%nat) →
      RegistryEntry_try_acquire e hp
      = (AKU_SUCCESS, Some (roots_ e), acquire_ref (roots_ e) hp)) ∧
     (¬ (∃ b, hp !! roots_ e = Some b ∧ use_count b = 1%nat) →
      RegistryEntry_try_acquire e hp = (AKU_EBUSY, None, hp))) ∧
  (∀ reg id entry hp,
     registry w = Some reg →
     TreeRegistry_try_acquire id reg (heap w) = (AKU_SUCCESS, entry, hp) →
     ∀ tok s, sessions w !! tok = Some s → cache_ s !! id = None).
Proof.
  intros (v & Hv & Hok)%Reachable_view_ok. split_and!.
  - intros id tok1 tok2 s1 s2. by eapply single_holder.
  - apply RegistryEntry_try_acquire_spec.
  - intros reg id entry hp Hreg Hacq tok s Hs.
    destruct (cache_ s !! id) as [h|] eqn:Hh; [|done]. exfalso.
    destruct (held_handle _ _ _ _ _ _ _ Hv Hok Hreg Hs Hh) as (e & b & He & <- & Hb & Hne).
    unfold TreeRegistry_try_acquire in Hacq. rewrite He in Hacq.
    destruct (RegistryEntry_try_acquire_spec e (heap w)) as [_ Hbusy].
    rewrite Hbusy in Hacq; [done|].
    intros (b' & Hb' & Hone). congruence.
Qed.

Lemma broadcast_loop_owner (active : list nat) sample source owner s h r w w' :
  owner ∈ active → owner ≠ source →
  sessions w !! owner = Some s → cache_ s !! paramid sample = Some h →
  (∀ tok s', sessions w !! tok = Some s' →
             is_Some (cache_ s' !! paramid sample) → tok = owner) →
  append_at h sample w = Ret r w' →
  broadcast_loop active sample source w = Ret r w'.
Proof.
  intros Hin Hne Hs Hh Honly Happ.
  induction active as [|tok rest IH]; [by apply elem_of_nil in Hin|].
  simpl. destruct (decide (tok = owner)) as [->|Hother].
  - rewrite Hs, decide_True by done.
    unfold IngestionSession_receive_broadcast. rewrite Hs, Hh, Happ. done.
  - apply elem_of_cons in Hin as [->|Hin]; [done|].
    destruct (sessions w !! tok) as [s'|] eqn:Hs'; [|by apply IH].
    destruct (decide (tok ≠ source)); [|by apply IH].
    unfold IngestionSession_receive_broadcast. rewrite Hs'.
    destruct (cache_ s' !! paramid sample) as [h'|] eqn:Hh'.
    + exfalso. apply Hother. eapply Honly; eauto.
    + simpl. by apply IH.
Qed.

(** C6, amended: in a reachable state, session [B] is alive, still registered
    in [active_] (it has not called [close]) and has the id in its [cache_];
    another session [A] writes a sample for that id.  [A]'s [try_acquire]
    says [AKU_EBUSY]; [B]'s [_receive_broadcast] appends the sample to the
    extent list behind [B]'s handle and answers [(true, outcome)];
    [broadcast_sample] returns that outcome in the state [B] left; [write]
    ends in that same state, in which [A]'s session, and so its [cache_],
    is what it was, without the id. *)
Theorem write_routes_to_owner w reg A B sA sB sample h :
  Reachable w →
  registry w = Some reg → B ∈ active_ reg →
  sessions w !! A = Some sA → sessions w !! B = Some sB → A ≠ B →
  payload_type sample = AKU_PAYLOAD_FLOAT →
  cache_ sB !! paramid sample = Some h →
  ∃ b, heap w !! h = Some b ∧
    cache_ sA !! paramid sample = None ∧
    TreeRegistry_try_acquire (paramid sample) reg (heap w) = (AKU_EBUSY, None, heap w) ∧
    let '(outcome, tree) :=
      nbtree_append (timestamp sample) (float64 sample) (pointee b) in
    let w' := set_heap (<[h := mk_block tree (use_count b)]> (heap w)) w in
    IngestionSession_receive_broadcast B sample w = Ret (true, outcome) w' ∧
    TreeRegistry_broadcast_sample sample A reg w = Ret outcome w' ∧
    result_world (IngestionSession_write A sample w) = w' ∧
    sessions w' !! A = Some sA.
Proof.
  intros (v & Hv & Hok)%Reachable_view_ok Hreg Hact HA HB Hne Hfloat Hh.
  destruct (held_handle _ _ _ _ _ _ _ Hv Hok Hreg HB Hh) as (e & b & He & <- & Hb & Hcnt).
  assert (Hmiss : cache_ sA !! paramid sample = None).
  { destruct (cache_ sA !! paramid sample) as [h'|] eqn:Hh'; [|done].
    exfalso. apply Hne. eapply (single_holder w v A B sA sB); eauto. }
  assert (Hbusy : TreeRegistry_try_acquire (paramid sample) reg (heap w)
                  = (AKU_EBUSY, None, heap w)).
  { unfold TreeRegistry_try_acquire. rewrite He.
    apply RegistryEntry_try_acquire_spec. intros (b' & Hb' & Hone). congruence. }
  exists b. split_and!; try done.
  destruct (nbtree_append (timestamp sample) (float64 sample) (pointee b))
    as [outcome tree] eqn:Happ.
  set (w' := set_heap _ w).
  assert (Hat : append_at (roots_ e) sample w = Ret outcome w').
  { unfold append_at. by rewrite Hb, Happ. }
  assert (Hbc : TreeRegistry_broadcast_sample sample A reg w = Ret outcome w').
  { unfold TreeRegistry_broadcast_sample.
    eapply (broadcast_loop_owner _ _ _ B sB); eauto.
    intros tok s' Hs' Hsome. eapply (single_holder w v tok B s' sB); eauto. }
  split_and!.
  - unfold IngestionSession_receive_broadcast. by rewrite HB, Hh, Hat.
  - done.
  - unfold IngestionSession_write. rewrite HA, decide_False by (by intros []).
    rewrite Hmiss. unfold write_dispatch. rewrite Hreg, Hbusy, set_heap_same, Hbc.
    simpl. unfold write_interpret. rewrite decide_True by done.
    by destruct outcome.
  - done.
Qed.

(** ** Names *)

Lemma gtable_mono_VStep v v' (n : string) (i : Z) :
  VStep v v' → view_ok v → gtable v !! n = Some i → gtable v' !! n = Some i.
Proof.
  intros Hstep Hok Hn. destruct Hstep; simpl; try done.
  rewrite lookup_insert_ne; [done|]. intros <-.
  rewrite Hn in H. simpl in H. subst. apply (names_range _ Hok) in Hn. lia.
Qed.

Lemma gtable_mono_rtc v v' (n : string) (i : Z) :
  rtc VStep v v' → view_ok v → gtable v !! n = Some i → gtable v' !! n = Some i.
Proof.
  intros Hsteps. induction Hsteps as [|v1 v2 v3 Hstep _ IH]; [done|].
  intros Hok Hn. apply IH.
  - by eapply view_ok_VStep.
  - by eapply gtable_mono_VStep.
Qed.

Lemma steps_view w w' v :
  rtc Step w w' → view_of w = Some v → view_ok v →
  ∃ v', view_of w' = Some v' ∧ rtc VStep v v'.
Proof.
  intros Hsteps. revert v. induction Hsteps as [|w1 w2 w3 Hstep _ IH]; intros v Hv Hok.
  - by exists v.
  - destruct (Step_view _ _ _ Hstep Hv Hok) as (v2 & Hv2 & Hvs).
    destruct (IH v2 Hv2) as (v3 & Hv3 & Hvs'); [by eapply view_ok_rtc|].
    exists v3. split; [done|]. by etrans.
Qed.

(** What a successful [init_series_id] of a session does. *)
Lemma init_series_id_registers tok s raw name sample w v :
  view_of w = Some v → view_ok v →
  sessions w !! tok = Some s →
  to_normal_form raw = (AKU_SUCCESS, name) →
  ∃ sample' w' v',
    IngestionSession_init_series_id tok raw sample w = Ret (AKU_SUCCESS, sample') w' ∧
    view_of w' = Some v' ∧
    gtable v' !! name = Some (paramid sample') ∧
    (is_Some (gtable v !! name) →
     heap w' = heap w ∧ table_ <$> registry w' = table_ <$> registry w ∧
     global_matcher_ <$> registry w' = global_matcher_ <$> registry w).
Proof.
  intros Hv Hok Hs Hnf.
  destruct (view_of_Some _ _ Hv) as [reg Hreg].
  unfold IngestionSession_init_series_id. rewrite Hs, Hnf.
  rewrite decide_False by (by intros []).
  pose proof Hv as Hv0. unfold view_of in Hv0. rewrite Hreg in Hv0. injection Hv0 as <-.
  case_decide as Hlocal.
  - rewrite Hreg. unfold TreeRegistry_init_series_id.
    case_decide as Hglobal; simpl.
    + do 3 eexists. split; [done|]. split; [unfold view_of; simpl; done|].
      simpl. split; [apply lookup_insert_eq|].
      intros [j Hj]. unfold SeriesMatcher.match_ in Hglobal.
      rewrite Hj in Hglobal. simpl in Hglobal. subst.
      apply (names_range _ Hok) in Hj. lia.
    + do 3 eexists. split; [done|]. split; [unfold view_of; simpl; done|].
      simpl. split; [by apply match_nonzero|].
      done.
  - do 3 eexists. split; [done|]. split; [done|]. simpl. split.
    + apply (names_local_fwd _ Hok tok (SeriesMatcher.table (local_matcher_ s))); simpl.
      * by rewrite lookup_fmap, Hs.
      * by apply match_nonzero.
    + done.
Qed.

Lemma list_ascii_of_string_length (str : string) :
  length (String.list_ascii_of_string str) = String.length str.
Proof. induction str; simpl; congruence. Qed.

Lemma memcpy_fits (buffer : list ascii) (name : string) :
  (String.length name ≤ length buffer)%nat →
  memcpy buffer name
  = Some (String.list_ascii_of_string name ++ drop (String.length name) buffer).
Proof.
  intros Hfit. unfold memcpy. rewrite list_ascii_of_string_length.
  by rewrite decide_True.
Qed.

(** A name found in the local matcher is copied whatever [buffer_size]
    says: a buffer shorter than the name is overrun. *)
Lemma get_series_name_cached_unchecked tok s id (name : string)
    (buffer : list ascii) (buffer_size : Z) w :
  sessions w !! tok = Some s →
  SeriesMatcher.id2str id (local_matcher_ s) = Some name →
  (length buffer < String.length name)%nat →
  IngestionSession_get_series_name tok id buffer buffer_size w = Crash BufferOverrun w.
Proof.
  intros Hs Hname Hshort. unfold IngestionSession_get_series_name.
  rewrite Hs, Hname. unfold memcpy. rewrite list_ascii_of_string_length.
  by rewrite decide_False by lia.
Qed.

Lemma static_cast_int_small (z : Z) : 0 ≤ z < 2 ^ 31 → static_cast_int z = z.
Proof. intros Hz. unfold static_cast_int. rewrite Z.mod_small; lia. Qed.

(** What [get_series_name] of a session answers for a registered id when the
    buffer is large enough. *)
Lemma get_series_name_registered tok s id name (buffer : list ascii) w v :
  view_of w = Some v → view_ok v →
  sessions w !! tok = Some s →
  ginv v !! id = Some name →
  (String.length name ≤ length buffer)%nat →
  Z.of_nat (length buffer) < 2 ^ 31 →
  ∃ w',
    IngestionSession_get_series_name tok id buffer (Z.of_nat (length buffer)) w
    = Ret (Z.of_nat (String.length name),
           String.list_ascii_of_string name ++ drop (String.length name) buffer) w'.
Proof.
  intros Hv Hok Hs Hname Hfit Hint.
  destruct (view_of_Some _ _ Hv) as [reg Hreg].
  unfold IngestionSession_get_series_name. rewrite Hs.
  unfold view_of in Hv. rewrite Hreg in Hv. injection Hv as <-. simpl in Hname.
  unfold SeriesMatcher.id2str.
  destruct (SeriesMatcher.inv_table (local_matcher_ s) !! id) as [n|] eqn:Hn.
  - assert (n = name) as ->.
    { pose proof (names_local_bwd _ Hok tok (SeriesMatcher.inv_table (local_matcher_ s)) n id)
        as Hb. simpl in Hb. rewrite lookup_fmap, Hs in Hb.
      specialize (Hb eq_refl Hn). congruence. }
    rewrite memcpy_fits by done. eauto.
  - rewrite Hreg. unfold TreeRegistry_get_series_name, SeriesMatcher.id2str.
    rewrite Hname. rewrite static_cast_int_small by lia.
    rewrite decide_False by lia. rewrite memcpy_fits by done. eauto.
Qed.

(** C5: once [init_series_id] has returned an id for a canonical name, then
    after any further calls every [init_series_id] of any live session
    succeeds, returns that same id for that same name and another id for
    another name, and for that same name leaves the heap, the entry table
    and the global catalog as they were (no second entry); and
    [get_series_name] of any live session, with a buffer that holds the
    name, writes the name and returns its length. *)
Theorem series_ids_unique_and_stable w1 tok1 raw1 name1 sample1 sample1' w1' w2 :
  Reachable w1 →
  to_normal_form raw1 = (AKU_SUCCESS, name1) →
  IngestionSession_init_series_id tok1 raw1 sample1 w1 = Ret (AKU_SUCCESS, sample1') w1' →
  rtc Step w1' w2 →
  (∀ tok2 s2 raw2 name2 sample2,
     sessions w2 !! tok2 = Some s2 →
     to_normal_form raw2 = (AKU_SUCCESS, name2) →
     ∃ sample2' w2',
       IngestionSession_init_series_id tok2 raw2 sample2 w2
       = Ret (AKU_SUCCESS, sample2') w2' ∧
       (name2 = name1 ↔ paramid sample2' = paramid sample1') ∧
       (name2 = name1 →
        heap w2' = heap w2 ∧
        table_ <$> registry w2' = table_ <$> registry w2 ∧
        global_matcher_ <$> registry w2' = global_matcher_ <$> registry w2)) ∧
  (∀ tok s (buffer : list ascii),
     sessions w2 !! tok = Some s →
     (String.length name1 ≤ length buffer)%nat →
     Z.of_nat (length buffer) < 2 ^ 31 →
     ∃ w2',
       IngestionSession_get_series_name tok (paramid sample1') buffer
         (Z.of_nat (length buffer)) w2
       = Ret (Z.of_nat (String.length name1),
              String.list_ascii_of_string name1 ++ drop (String.length name1) buffer) w2').
Proof.
  intros (v1 & Hv1 & Hok1)%Reachable_view_ok Hnf1 Hinit1 Hsteps.
  (* the first call registers the name *)
  assert (∃ s1, sessions w1 !! tok1 = Some s1) as [s1 Hs1].
  { unfold IngestionSession_init_series_id in Hinit1.
    destruct (sessions w1 !! tok1); [eauto|done]. }
  destruct (init_series_id_registers tok1 s1 raw1 name1 sample1 w1 v1 Hv1 Hok1 Hs1 Hnf1)
    as (smp & w & v1' & Heq & Hv1' & Hreg1 & _).
  rewrite Hinit1 in Heq. injection Heq as <- <-.
  assert (Hok1' : view_ok v1').
  { destruct (Step_view w1 w1' v1) as (v & Hv & Hvs); eauto using step_init_series_id.
    assert (v = v1') as -> by congruence. by eapply view_ok_rtc. }
  (* and it stays registered *)
  destruct (steps_view _ _ _ Hsteps Hv1' Hok1') as (v2 & Hv2 & Hvs2).
  assert (Hok2 : view_ok v2) by (by eapply view_ok_rtc).
  assert (Hreg2 : gtable v2 !! name1 = Some (paramid sample1')).
  { by eapply gtable_mono_rtc. }
  split.
  - intros tok2 s2 raw2 name2 sample2 Hs2 Hnf2.
    destruct (init_series_id_registers tok2 s2 raw2 name2 sample2 w2 v2 Hv2 Hok2 Hs2 Hnf2)
      as (sample2' & w2' & v2' & Hinit2 & Hv2' & Hname2 & Hsame).
    exists sample2', w2'. split; [done|].
    destruct (Step_view w2 w2' v2) as (v & Hv & Hvs); eauto using step_init_series_id.
    assert (v = v2') as -> by congruence.
    assert (Hok2' : view_ok v2') by (by eapply view_ok_rtc).
    assert (Hname1 : gtable v2' !! name1 = Some (paramid sample1')).
    { by eapply gtable_mono_rtc. }
    split.
    + split.
      * intros ->. congruence.
      * intros Hid. rewrite Hid in Hname2.
        apply (names_bij _ Hok2') in Hname1, Hname2. congruence.
    + intros ->. apply Hsame. eauto.
  - intros tok s buffer Hs Hfit Hint.
    eapply get_series_name_registered; eauto.
    by apply (names_bij _ Hok2).
Qed.

End Properties.

(** * The properties on the run with two sessions *)

Lemma demo_two_sessions_reachable : Reachable demo_two_sessions.
Proof.
  exists MetadataStorage.empty.
  eapply rtc_l.
  { eapply (step_create_session _ 0%nat (created demo_start)). vm_compute. reflexivity. }
  eapply rtc_l; [|apply rtc_refl].
  eapply (step_create_session _ 1%nat demo_two_sessions). vm_compute. reflexivity.
Defined.

Lemma demo_init_returns :
  IngestionSession_init_series_id 0%nat "abc" (demo_sample 0 0 0) demo_two_sessions
  = Ret (AKU_SUCCESS, demo_sample 1 0 0) demo_registered.
Proof. vm_compute. reflexivity. Defined.

Lemma demo_write_returns :
  IngestionSession_write 0%nat (demo_sample 1 10 0) demo_registered
  = Ret AKU_SUCCESS demo_owned.
Proof. vm_compute. reflexivity. Defined.

Lemma demo_registered_to_owned : rtc Step demo_registered demo_owned.
Proof. apply rtc_once. eapply step_write. exact demo_write_returns. Defined.

Lemma demo_owned_reachable : Reachable demo_owned.
Proof.
  destruct demo_two_sessions_reachable as [meta Hsteps]. exists meta.
  eapply rtc_r; [eapply rtc_r; [exact Hsteps|]|].
  - eapply step_init_series_id. exact demo_init_returns.
  - eapply step_write. exact demo_write_returns.
Defined.

(** C1: [write] with an append that asks for a flush, on an id that was not
    in the session's cache when [write] started.  Session [0] acquires the
    free series [1] and appends, session [1] reaches the owner through the
    broadcast: in both runs the sample is in the extent list and [write]
    then dereferences the end iterator of [cache_] instead of reaching
    [get_roots] and [update_rescue_points]. *)
Theorem write_flush_without_cached_entry_faults :
  (∃ w', IngestionSession_write 0%nat (demo_sample 1 10 1) demo_registered
         = Crash EndIteratorDeref w' ∧
         heap w' = [demo_block [(10, 1)] 2]) ∧
  (∃ w', IngestionSession_write 1%nat (demo_sample 1 11 1) demo_owned
         = Crash EndIteratorDeref w' ∧
         heap w' = [demo_block [(10, 0); (11, 1)] 2]).
Proof.
  split; eexists; (split; [vm_compute; reflexivity|]); vm_compute; reflexivity.
Qed.

(** C2: the name ["abc"] of id [1] is in the local matcher of session [0]
    and the buffer has two bytes: [get_series_name] copies the three bytes
    of the name over the end of the buffer.  Session [1], which has to ask
    the registry, gets [-3] and an untouched buffer for the same call. *)
Theorem get_series_name_cached_overruns_small_buffer :
  IngestionSession_get_series_name 0%nat 1 ["x"; "y"]%char 2 demo_registered
  = Crash BufferOverrun demo_registered ∧
  ∃ w', IngestionSession_get_series_name 1%nat 1 ["x"; "y"]%char 2 demo_registered
        = Ret (-3, ["x"; "y"]%char) w'.
Proof.
  split; [vm_compute; reflexivity|]. eexists. vm_compute. reflexivity.
Qed.

Lemma sync_failure_keeps_rescue_points_witness :
  (false = true ∨ true = true) ∧
  rescue_points_ (TreeRegistry_sync_with_metadata_storage false true demo_buffered).2
  = rescue_points_ demo_buffered.
Proof.
  split; [by right|].
  apply (sync_failure_keeps_rescue_points demo_buffered false true). by right.
Defined.

Lemma update_rescue_points_then_sync_witness :
  MetadataStorage.rescue_points
    (metadata_
       (TreeRegistry_sync_with_metadata_storage false false demo_buffered).2) !! 1
  = Some [170; 187].
Proof.
  apply (update_rescue_points_then_sync (new_registry MetadataStorage.empty) 1
           [170; 187] false false). vm_compute. reflexivity.
Defined.

Lemma init_series_id_buffers_empty_rescue_points_witness :
  SeriesMatcher.match_ "abc" (global_matcher_ (new_registry MetadataStorage.empty)) = 0 ∧
  let reg' :=
    (TreeRegistry_init_series_id "abc" (demo_sample 0 0 0) SeriesMatcher.empty
       (new_registry MetadataStorage.empty) []).1.2 in
  rescue_points_ reg' !! 1 = Some [] ∧
  TreeRegistry_wait_for_sync_request cv_no_timeout reg' = AKU_SUCCESS ∧
  (TreeRegistry_sync_with_metadata_storage false false reg').1 = SyncReturned ∧
  MetadataStorage.rescue_points
    (metadata_ (TreeRegistry_sync_with_metadata_storage false false reg').2) !! 1
  = Some [].
Proof.
  split; [reflexivity|].
  pose proof (init_series_id_buffers_empty_rescue_points "abc" (demo_sample 0 0 0)
                SeriesMatcher.empty (new_registry MetadataStorage.empty) [] eq_refl) as H.
  simpl in H. destruct H as (_ & _ & Hbuf & _ & Hwait & Hret & Hstore & _).
  simpl. by split_and!.
Defined.

Lemma single_writer_witness :
  Reachable demo_owned ∧
  ∀ tok s, sessions demo_owned !! tok = Some s → is_Some (cache_ s !! 1) → tok = 0%nat.
Proof.
  split; [exact demo_owned_reachable|].
  intros tok s Hs Hsome.
  destruct (single_writer demo_owned demo_owned_reachable) as [Hsingle _].
  eapply (Hsingle 1 tok 0%nat s (mk_session _ {[1 := 0%nat]})); [done| |done|].
  - vm_compute. reflexivity.
  - by eexists.
Defined.

Lemma series_ids_unique_and_stable_witness :
  Reachable demo_two_sessions ∧
  ∃ w', IngestionSession_get_series_name 1%nat 1 ["w"; "x"; "y"; "z"]%char 4 demo_owned
        = Ret (3, ["a"; "b"; "c"; "z"]%char) w'.
Proof.
  split; [exact demo_two_sessions_reachable|].
  destruct (series_ids_unique_and_stable demo_two_sessions 0%nat "abc" "abc"
              (demo_sample 0 0 0) (demo_sample 1 0 0) demo_registered demo_owned
              demo_two_sessions_reachable eq_refl demo_init_returns
              demo_registered_to_owned) as [_ Hname].
  apply (Hname 1%nat (mk_session SeriesMatcher.empty ∅) ["w"; "x"; "y"; "z"]%char).
  - vm_compute. reflexivity.
  - simpl. lia.
  - simpl. lia.
Defined.

Lemma write_routes_to_owner_witness :
  Reachable demo_owned ∧
  heap (result_world (IngestionSession_write 1%nat (demo_sample 1 11 0) demo_owned))
  = [demo_block [(10, 0); (11, 0)] 2].
Proof.
  split; [exact demo_owned_reachable|].
  assert (Hreg : ∃ reg, registry demo_owned = Some reg ∧ 0%nat ∈ active_ reg).
  { eexists. split; [vm_compute; reflexivity|]. vm_compute. by left. }
  destruct Hreg as (reg & Hreg & Hact).
  destruct (write_routes_to_owner demo_owned reg 1%nat 0%nat
              (mk_session SeriesMatcher.empty ∅)
              (mk_session (SeriesMatcher._add "abc" 1 SeriesMatcher.empty) {[1 := 0%nat]})
              (demo_sample 1 11 0) 0%nat demo_owned_reachable Hreg Hact)
    as (b & Hb & _ & _ & Hrun).
  - vm_compute. reflexivity.
  - vm_compute. reflexivity.
  - done.
  - done.
  - vm_compute. reflexivity.
  - assert (b = demo_block [(10, 0)] 2) as ->.
    { assert (heap demo_owned !! 0%nat = Some (demo_block [(10, 0)] 2)) as Hb'
        by (vm_compute; reflexivity).
      congruence. }
    simpl in Hrun. destruct Hrun as (_ & _ & -> & _). vm_compute. reflexivity.
Defined.

Lemma demo_owner_closed_reachable : Reachable demo_owner_closed.
Proof.
  destruct demo_owned_reachable as [meta Hsteps]. exists meta.
  eapply rtc_r; [exact Hsteps|].
  apply (step_close demo_owned 0%nat). eexists. vm_compute. reflexivity.
Defined.

(** C6, as stated, fails when the owner has called [close] and still exists:
    session [0] has id [1] in its [cache_], session [1] writes a sample for
    id [1]; the broadcast does not reach session [0], [broadcast_sample]
    returns [FAIL_BAD_ID] and [write] returns [AKU_ENOT_FOUND], both
    leaving every extent list as it was, although [_receive_broadcast] of
    session [0] would have taken the sample. *)
Lemma write_to_closed_owner_not_delivered :
  Reachable demo_owner_closed ∧
  (∃ sB, sessions demo_owner_closed !! 0%nat = Some sB ∧ cache_ sB !! 1 = Some 0%nat) ∧
  (∃ reg, registry demo_owner_closed = Some reg ∧
          TreeRegistry_broadcast_sample (demo_sample 1 11 0) 1%nat reg demo_owner_closed
          = Ret FAIL_BAD_ID demo_owner_closed) ∧
  IngestionSession_write 1%nat (demo_sample 1 11 0) demo_owner_closed
  = Ret AKU_ENOT_FOUND demo_owner_closed ∧
  heap demo_owner_closed = [demo_block [(10, 0)] 2] ∧
  ∃ w', IngestionSession_receive_broadcast 0%nat (demo_sample 1 11 0) demo_owner_closed
        = Ret (true, OK) w'.
Proof.
  split; [exact demo_owner_closed_reachable|].
  split; [eexists; split; vm_compute; reflexivity|].
  split; [eexists; split; vm_compute; reflexivity|].
  split; [vm_compute; reflexivity|].
  split; [vm_compute; reflexivity|].
  eexists. vm_compute. reflexivity.
Qed.

Lemma write_busy_without_owner_witness :
  cache_ (mk_session SeriesMatcher.empty ∅) !! 1 = None ∧
  IngestionSession_write 1%nat (demo_sample 1 11 0) demo_owner_closed
  = Ret AKU_ENOT_FOUND demo_owner_closed.
Proof.
  split; [reflexivity|].
  assert (Hreg : ∃ reg, registry demo_owner_closed = Some reg ∧ active_ reg = [1%nat]).
  { eexists. split; vm_compute; reflexivity. }
  destruct Hreg as (reg & Hreg & Hact).
  eapply (write_busy_without_owner 1%nat (mk_session SeriesMatcher.empty ∅)
            (demo_sample 1 11 0) reg demo_owner_closed None (heap demo_owner_closed)).
  - vm_compute. reflexivity.
  - done.
  - done.
  - done.
  - assert (registry demo_owner_closed
            = Some (TreeRegistry_remove_dispatcher 0%nat
                      (default (new_registry MetadataStorage.empty) (registry demo_owned))))
      as Hreg' by (vm_compute; reflexivity).
    rewrite Hreg in Hreg'. injection Hreg' as ->. vm_compute. reflexivity.
  - intros tok s'. rewrite Hact. intros ->%list_elem_of_singleton. done.
Defined.

Lemma write_flush_after_teardown_returns_closed_witness :
  registry demo_torn_down = None ∧
  ∃ w', IngestionSession_write 0%nat (demo_sample 1 12 1) demo_torn_down
        = Ret AKU_ECLOSED w' ∧
        heap w' = [demo_block [(10, 0); (12, 1)] 1].
Proof.
  split; [vm_compute; reflexivity|]. eexists. split.
  - eapply (write_flush_after_teardown_returns_closed 0%nat
              (mk_session (SeriesMatcher._add "abc" 1 SeriesMatcher.empty) {[1 := 0%nat]})
              (demo_sample 1 12 1) 0%nat (demo_block [(10, 0)] 1) [(10, 0); (12, 1)]).
    + vm_compute. reflexivity.
    + done.
    + vm_compute. reflexivity.
    + vm_compute. reflexivity.
    + vm_compute. reflexivity.
    + vm_compute. reflexivity.
  - vm_compute. reflexivity.
Defined.

(** * Further properties of the engine *)

Section FurtherProperties.

Context `{Ext : Collaborators}.

Implicit Types (w : World) (reg : TreeRegistry) (s : IngestionSession)
  (sample : aku_Sample) (hp : list SharedBlock) (v : View).

(** ** Statuses and effects of [write] *)

Lemma TreeRegistry_try_acquire_status id reg hp status entry hp' :
  TreeRegistry_try_acquire id reg hp = (status, entry, hp') →
  status = AKU_SUCCESS ∨ status = AKU_EBUSY ∨ status = AKU_ENOT_FOUND.
Proof.
  unfold TreeRegistry_try_acquire, RegistryEntry_try_acquire.
  destruct (table_ reg !! id) as [e|].
  - destruct (RegistryEntry_is_available e hp); intros [= <- _ _]; auto.
  - intros [= <- _ _]. auto.
Qed.

Lemma write_interpret_status id (it : option nat) status r w status' w' :
  write_interpret id it status r w = Ret status' w' →
  status' = status ∨ status' = AKU_ECLOSED ∨ status' = AKU_ELATE_WRITE
  ∨ status' = AKU_ENOT_FOUND.
Proof.
  unfold write_interpret. case_decide; [|intros [= <- _]; auto].
  destruct r.
  - intros [= <- _]. auto.
  - destruct it; [|done]. destruct (heap w !! n); [|done].
    destruct (registry w); intros [= <- _]; auto.
  - intros [= <- _]. auto.
  - intros [= <- _]. auto.
Qed.

(** X1: whatever happens inside, a [write] that returns gives one of
    [AKU_SUCCESS], [AKU_ENOT_FOUND], [AKU_ECLOSED], [AKU_EBAD_ARG] and
    [AKU_ELATE_WRITE]; the [AKU_EBUSY] of [try_acquire] never reaches the
    caller. *)
Theorem write_status_surface self sample w status w' :
  IngestionSession_write self sample w = Ret status w' →
  status = AKU_SUCCESS ∨ status = AKU_ENOT_FOUND ∨ status = AKU_ECLOSED
  ∨ status = AKU_EBAD_ARG ∨ status = AKU_ELATE_WRITE.
Proof.
  unfold IngestionSession_write.
  destruct (sessions w !! self) as [s|]; [|done].
  case_decide; [intros [= <- _]; auto|].
  destruct (write_dispatch self s sample (cache_ s !! paramid sample) w)
    as [[st r] w1|] eqn:Hd; simpl; [|done].
  intros Hi. apply write_interpret_status in Hi.
  assert (Hst : st = AKU_SUCCESS ∨ st = AKU_ENOT_FOUND ∨ st = AKU_ECLOSED).
  { unfold write_dispatch in Hd.
    destruct (cache_ s !! paramid sample) as [h|].
    - destruct (append_at h sample w); simpl in Hd; [|done].
      injection Hd as <- _ _. auto.
    - destruct (registry w) as [reg|]; [|injection Hd as <- _ _; auto].
      destruct (TreeRegistry_try_acquire (paramid sample) reg (heap w))
        as [[st' entry] hp] eqn:Hacq.
      apply TreeRegistry_try_acquire_status in Hacq.
      destruct Hacq as [-> | [-> | ->]].
      + destruct entry as [h|]; [|done].
        match type of Hd with
        | rbind (append_at _ _ ?w1) _ = _ => destruct (append_at h sample w1)
        end; simpl in Hd; [|done].
        injection Hd as <- _ _. auto.
      + destruct (TreeRegistry_broadcast_sample sample self reg (set_heap hp w));
          simpl in Hd; [|done].
        injection Hd as <- _ _. auto.
      + injection Hd as <- _ _. auto. }
  destruct Hi as [-> | [-> | [-> | ->]]]; destruct Hst as [-> | [-> | ->]]; auto 10.
Qed.


Lemma append_at_Ret h sample w r w' :
  append_at h sample w = Ret r w' →
  ∃ b tree, heap w !! h = Some b ∧
    nbtree_append (timestamp sample) (float64 sample) (pointee b) = (r, tree) ∧
    w' = set_heap (<[h := mk_block tree (use_count b)]> (heap w)) w.
Proof.
  unfold append_at. destruct (heap w !! h) as [b|]; [|done].
  destruct (nbtree_append _ _ _) as [r' tree] eqn:Happ. intros [= <- <-].
  by exists b, tree.
Qed.

Lemma append_at_Crash h sample w f w' :
  append_at h sample w = Crash f w' → heap w !! h = None.
Proof.
  unfold append_at. destruct (heap w !! h); [|done].
  by destruct (nbtree_append _ _ _).
Qed.

(** What the loop of a broadcast does: nothing at all, or one append through
    the handle of one session other than the source. *)
Lemma broadcast_loop_outcome (active : list nat) sample source w r w' :
  broadcast_loop active sample source w = Ret r w' →
  (r = FAIL_BAD_ID ∧ w' = w ∧
   ∀ tok s, tok ∈ active → tok ≠ source → sessions w !! tok = Some s →
            cache_ s !! paramid sample = None) ∨
  (∃ tok s h, tok ∈ active ∧ tok ≠ source ∧ sessions w !! tok = Some s ∧
              cache_ s !! paramid sample = Some h ∧
              append_at h sample w = Ret r w').
Proof.
  induction active as [|tok rest IH]; simpl.
  - intros [= <- <-]. left. split_and!; try done.
    intros tok s Hin. by apply elem_of_nil in Hin.
  - assert (Hrest : broadcast_loop rest sample source w = Ret r w' →
      (∀ s, tok ≠ source → sessions w !! tok = Some s →
            cache_ s !! paramid sample = None) →
      (r = FAIL_BAD_ID ∧ w' = w ∧
       ∀ t s, t ∈ tok :: rest → t ≠ source → sessions w !! t = Some s →
              cache_ s !! paramid sample = None) ∨
      (∃ t s h, t ∈ tok :: rest ∧ t ≠ source ∧ sessions w !! t = Some s ∧
                cache_ s !! paramid sample = Some h ∧
                append_at h sample w = Ret r w')).
    { intros Hl Hhere. destruct (IH Hl) as [(-> & -> & Hnone)|(t & s & h & Hin & ?)].
      - left. split_and!; try done.
        intros t s [->|Hin]%elem_of_cons; [apply Hhere|by apply Hnone].
      - right. exists t, s, h. split; [by right|done]. }
    destruct (sessions w !! tok) as [s|] eqn:Hs; [|intros Hl; by apply Hrest].
    destruct (decide (tok ≠ source)) as [Hne|Heq]; [|intros Hl; by apply Hrest].
    unfold IngestionSession_receive_broadcast. rewrite Hs.
    destruct (cache_ s !! paramid sample) as [h|] eqn:Hh.
    + destruct (append_at h sample w) as [r1 w1|] eqn:Happ; simpl; [|done].
      intros [= <- <-]. right. exists tok, s, h. split; [by left|done].
    + simpl. intros Hl. apply Hrest; [done|]. by intros s' _ [= <-].
Qed.

(** X2: a [broadcast_sample] that returns has either found no taker, and then
    it answers [FAIL_BAD_ID] and has changed nothing, or it has appended the
    sample exactly once, through the handle of a registered live session
    other than the source, and answers what that append answered. *)
Theorem broadcast_sample_delivers_once sample source reg w r w' :
  TreeRegistry_broadcast_sample sample source reg w = Ret r w' →
  (r = FAIL_BAD_ID ∧ w' = w ∧
   ∀ tok s, tok ∈ active_ reg → tok ≠ source → sessions w !! tok = Some s →
            cache_ s !! paramid sample = None) ∨
  (∃ tok s h b tree,
      tok ∈ active_ reg ∧ tok ≠ source ∧ sessions w !! tok = Some s ∧
      cache_ s !! paramid sample = Some h ∧ heap w !! h = Some b ∧
      nbtree_append (timestamp sample) (float64 sample) (pointee b) = (r, tree) ∧
      w' = set_heap (<[h := mk_block tree (use_count b)]> (heap w)) w).
Proof.
  unfold TreeRegistry_broadcast_sample. intros Hloop.
  apply broadcast_loop_outcome in Hloop as [?|(tok & s & h & ? & ? & ? & ? & Happ)];
    [by left|].
  apply append_at_Ret in Happ as (b & tree & ? & ? & ?).
  right. by exists tok, s, h, b, tree.
Qed.

(** What the first half of [write] changes: one heap block at most, and in
    the session at most the cache entry of the sample's id. *)
Lemma write_dispatch_effect self s sample w st r w1 :
  sessions w !! self = Some s →
  write_dispatch self s sample (cache_ s !! paramid sample) w = Ret (st, r) w1 →
  external w1 = external w ∧ registry w1 = registry w ∧
  (∃ h, ∀ h', h' ≠ h → heap w1 !! h' = heap w !! h') ∧
  (∀ tok, tok ≠ self → sessions w1 !! tok = sessions w !! tok) ∧
  (∃ s', sessions w1 !! self = Some s' ∧
         local_matcher_ s' = local_matcher_ s ∧
         ∀ id, id ≠ paramid sample → cache_ s' !! id = cache_ s !! id).
Proof.
  intros Hs Hd. unfold write_dispatch in Hd.
  destruct (cache_ s !! paramid sample) as [h|] eqn:Hit.
  - destruct (append_at h sample w) as [r1 w2|] eqn:Happ; simpl in Hd; [|done].
    injection Hd as <- <- <-.
    apply append_at_Ret in Happ as (b & tree & Hb & _ & ->). simpl.
    split_and!; try done; [|by exists s].
    exists h. intros h' Hne. by rewrite list_lookup_insert_ne.
  - destruct (registry w) as [reg|] eqn:Hreg.
    2:{ injection Hd as <- <- <-. split_and!; try done; [|by exists s].
        by exists 0%nat. }
    unfold TreeRegistry_try_acquire in Hd.
    destruct (table_ reg !! paramid sample) as [e|].
    2:{ injection Hd as <- <- <-. simpl. split_and!; try done; [|by exists s].
        by exists 0%nat. }
    unfold RegistryEntry_try_acquire in Hd.
    destruct (RegistryEntry_is_available e (heap w)).
    + match type of Hd with
      | rbind (append_at _ _ ?w0) _ = _ =>
          destruct (append_at (roots_ e) sample w0) as [r1 w2|] eqn:Happ
      end; simpl in Hd; [|done].
      injection Hd as <- <- <-.
      apply append_at_Ret in Happ as (b & tree & Hb & _ & ->). simpl.
      split_and!; try done.
      * exists (roots_ e). intros h' Hne. rewrite list_lookup_insert_ne by done.
        unfold acquire_ref. by rewrite list_lookup_alter_ne.
      * intros tok Hne. by rewrite lookup_insert_ne.
      * eexists. rewrite lookup_insert_eq. split; [done|]. simpl. split; [done|].
        intros id Hne. by rewrite lookup_insert_ne.
    + simpl in Hd. rewrite set_heap_same in Hd.
      unfold TreeRegistry_broadcast_sample in Hd.
      destruct (broadcast_loop (active_ reg) sample self w) as [r1 w2|] eqn:Hb;
        simpl in Hd; [|done].
      injection Hd as <- <- <-.
      apply broadcast_loop_outcome in Hb
        as [(_ & -> & _)|(tok & s0 & h & _ & _ & _ & _ & Happ)].
      * split_and!; try done; [|by exists s]. by exists 0%nat.
      * apply append_at_Ret in Happ as (b & tree & Hb & _ & ->). simpl.
        split_and!; try done; [|by exists s].
        exists h. intros h' Hne. by rewrite list_lookup_insert_ne.
Qed.

(** What the second half of [write] changes: nothing, or the rescue points
    of the sample's id. *)
Lemma write_interpret_effect id (it : option nat) st r w1 status w' :
  write_interpret id it st r w1 = Ret status w' →
  w' = w1 ∨
  ∃ reg roots, registry w1 = Some reg ∧
    w' = set_registry (Some (TreeRegistry_update_rescue_points id roots reg)) w1.
Proof.
  unfold write_interpret. case_decide; [|intros [= _ <-]; by left].
  destruct r; try (intros [= _ <-]; by left).
  destruct it as [h0|]; [|done].
  destruct (heap w1 !! h0); [|done].
  destruct (registry w1) as [reg|]; intros [= _ <-]; [|by left].
  right. by eexists _, _.
Qed.

(** X3: a [write] that returns changes at most one extent list and, in its
    own session, at most the cache entry of the sample's id; every other
    session, the handles held outside, the catalog, the entry table, the
    registered sessions, the metadata store and the rescue points of every
    other id are what they were. *)
Theorem write_frame self sample w status w' :
  IngestionSession_write self sample w = Ret status w' →
  external w' = external w ∧
  (∃ h, ∀ h', h' ≠ h → heap w' !! h' = heap w !! h') ∧
  (∀ tok, tok ≠ self → sessions w' !! tok = sessions w !! tok) ∧
  (∃ s s', sessions w !! self = Some s ∧ sessions w' !! self = Some s' ∧
           local_matcher_ s' = local_matcher_ s ∧
           ∀ id, id ≠ paramid sample → cache_ s' !! id = cache_ s !! id) ∧
  global_matcher_ <$> registry w' = global_matcher_ <$> registry w ∧
  table_ <$> registry w' = table_ <$> registry w ∧
  active_ <$> registry w' = active_ <$> registry w ∧
  metadata_ <$> registry w' = metadata_ <$> registry w ∧
  ∀ id, id ≠ paramid sample →
    (registry w' ≫= λ r, rescue_points_ r !! id)
    = (registry w ≫= λ r, rescue_points_ r !! id).
Proof.
  unfold IngestionSession_write.
  destruct (sessions w !! self) as [s|] eqn:Hs; [|done].
  case_decide.
  { intros [= <- <-]. split_and!; try done; [by exists 0%nat|by exists s, s]. }
  destruct (write_dispatch self s sample (cache_ s !! paramid sample) w)
    as [[st r] w1|] eqn:Hd; simpl; [|done].
  destruct (write_dispatch_effect _ _ _ _ _ _ _ Hs Hd)
    as (Hex & Hreg & (h & Hheap) & Hothers & (s' & Hs' & Hlm & Hcache)).
  intros [-> | (reg & roots & Hr1 & ->)]%write_interpret_effect.
  - rewrite Hreg. split_and!; try done; [by exists h|by exists s, s'].
  - simpl. rewrite <- Hreg, Hr1. simpl.
    split_and!; try done; [by exists h|by exists s, s'|].
    intros id Hne. by rewrite lookup_insert_ne.
Qed.

(** A [write] that returns neither registers nor unregisters nor destroys a
    session. *)
Lemma write_keeps_sessions self sample w status w' :
  IngestionSession_write self sample w = Ret status w' →
  active_ <$> registry w' = active_ <$> registry w ∧
  ∀ t, is_Some (sessions w !! t) → is_Some (sessions w' !! t).
Proof.
  unfold IngestionSession_write.
  destruct (sessions w !! self) as [s|] eqn:Hs; [|done].
  case_decide; [by intros [= _ <-]|].
  destruct (write_dispatch self s sample (cache_ s !! paramid sample) w)
    as [[st r] w1|] eqn:Hd; simpl; [|done].
  destruct (write_dispatch_effect _ _ _ _ _ _ _ Hs Hd)
    as (_ & Hreg & _ & Hothers & (s' & Hs' & _)).
  assert (Hlive : ∀ t, is_Some (sessions w !! t) → is_Some (sessions w1 !! t)).
  { intros t Ht. destruct (decide (t = self)) as [->|Hne]; [by rewrite Hs'|].
    by rewrite Hothers. }
  intros [-> | (reg & roots & Hr1 & ->)]%write_interpret_effect.
  - by rewrite Hreg.
  - simpl. by rewrite <- Hreg, Hr1.
Qed.

(** X4: a [write] with a float sample for an id that is neither in the
    session's cache nor in the registry's table returns [AKU_ENOT_FOUND] and
    changes nothing. *)
Theorem write_unregistered_id self s sample reg w :
  sessions w !! self = Some s →
  payload_type sample = AKU_PAYLOAD_FLOAT →
  cache_ s !! paramid sample = None →
  registry w = Some reg →
  table_ reg !! paramid sample = None →
  IngestionSession_write self sample w = Ret AKU_ENOT_FOUND w.
Proof.
  intros Hs Hfloat Hmiss Hreg Htbl. unfold IngestionSession_write.
  rewrite Hs, decide_False by (by intros []). rewrite Hmiss.
  unfold write_dispatch, TreeRegistry_try_acquire. rewrite Hreg, Htbl. simpl.
  by rewrite set_heap_same.
Qed.

(** X5: once the registry is gone, a [write] for an id that is not in the
    session's cache returns [AKU_ECLOSED] and changes nothing. *)
Theorem write_uncached_after_teardown self s sample w :
  sessions w !! self = Some s →
  payload_type sample = AKU_PAYLOAD_FLOAT →
  cache_ s !! paramid sample = None →
  registry w = None →
  IngestionSession_write self sample w = Ret AKU_ECLOSED w.
Proof.
  intros Hs Hfloat Hmiss Hreg. unfold IngestionSession_write.
  rewrite Hs, decide_False by (by intros []). rewrite Hmiss.
  unfold write_dispatch. by rewrite Hreg.
Qed.

Lemma insert_alter_same {A : Type} (f : A → A) (l : list A) (i : nat) (x : A) :
  <[i := x]> (alter f i l) = <[i := x]> l.
Proof.
  apply list_eq. intros j. destruct (decide (j = i)) as [->|Hne].
  - destruct (decide (i < length l)%nat) as [Hlt|Hge].
    + rewrite !list_lookup_insert_eq; [done|done|by rewrite length_alter].
    + rewrite !list_insert_ge; [|lia|rewrite length_alter; lia].
      rewrite list_lookup_alter_eq. rewrite lookup_ge_None_2; [done|lia].
  - by rewrite !list_lookup_insert_ne, list_lookup_alter_ne.
Qed.

(** The first half of [write] for an id that is free: the session takes the
    handle and appends through it. *)
Lemma write_dispatch_acquires self s sample reg (e : RegistryEntry)
    (b : SharedBlock) (r : NBTreeAppendResult) (tree : NBTreeExtentsList) w :
  registry w = Some reg →
  table_ reg !! paramid sample = Some e →
  heap w !! roots_ e = Some b →
  use_count b = 1%nat →
  nbtree_append (timestamp sample) (float64 sample) (pointee b) = (r, tree) →
  write_dispatch self s sample None w
  = Ret (AKU_SUCCESS, r)
      (set_heap (<[roots_ e := mk_block tree 2]> (heap w))
         (set_session self
            (mk_session (local_matcher_ s) (<[paramid sample := roots_ e]> (cache_ s))) w)).
Proof.
  intros Hreg Htbl Hb Hone Happ.
  assert (Hav : RegistryEntry_is_available e (heap w) = true).
  { unfold RegistryEntry_is_available. rewrite Hb. by apply bool_decide_eq_true. }
  unfold write_dispatch, TreeRegistry_try_acquire, RegistryEntry_try_acquire.
  rewrite Hreg, Htbl, Hav. simpl.
  unfold append_at. simpl. unfold acquire_ref.
  rewrite list_lookup_alter_eq, Hb. simpl. rewrite Happ, Hone. simpl.
  by rewrite insert_alter_same.
Qed.

(** X6: the first [write] of a float sample to a series nobody holds puts
    the handle into the session's cache and raises the reference count to
    two, whatever the append answers short of a flush request: the session
    owns the series also after a late write or a bad id, and a following
    [try_acquire] for the id says [AKU_EBUSY]. *)
Theorem write_acquires_free_series self s sample reg (e : RegistryEntry)
    (b : SharedBlock) (r : NBTreeAppendResult) (tree : NBTreeExtentsList) w :
  sessions w !! self = Some s →
  payload_type sample = AKU_PAYLOAD_FLOAT →
  cache_ s !! paramid sample = None →
  registry w = Some reg →
  table_ reg !! paramid sample = Some e →
  heap w !! roots_ e = Some b →
  use_count b = 1%nat →
  nbtree_append (timestamp sample) (float64 sample) (pointee b) = (r, tree) →
  r ≠ OK_FLUSH_NEEDED →
  let w' :=
    set_heap (<[roots_ e := mk_block tree 2]> (heap w))
      (set_session self
         (mk_session (local_matcher_ s) (<[paramid sample := roots_ e]> (cache_ s))) w) in
  IngestionSession_write self sample w
  = Ret (match r with
         | FAIL_LATE_WRITE => AKU_ELATE_WRITE
         | FAIL_BAD_ID => AKU_ENOT_FOUND
         | _ => AKU_SUCCESS
         end) w' ∧
  TreeRegistry_try_acquire (paramid sample) reg (heap w') = (AKU_EBUSY, None, heap w').
Proof.
  intros Hs Hfloat Hmiss Hreg Htbl Hb Hone Happ Hr. simpl. split.
  - unfold IngestionSession_write.
    rewrite Hs, decide_False by (by intros []). rewrite Hmiss.
    rewrite (write_dispatch_acquires self s sample reg e b r tree w) by done.
    simpl. unfold write_interpret. rewrite decide_True by done.
    by destruct r.
  - unfold TreeRegistry_try_acquire, RegistryEntry_try_acquire,
      RegistryEntry_is_available. rewrite Htbl. simpl.
    rewrite list_lookup_insert_eq by (by eapply lookup_lt_Some). done.
Qed.

(** ** Registry entry *)

Lemma release_acquire_ref h hp : release_ref h (acquire_ref h hp) = hp.
Proof.
  unfold release_ref, acquire_ref. apply list_eq. intros i.
  destruct (decide (i = h)) as [->|Hne].
  - rewrite !list_lookup_alter_eq. by destruct (hp !! h) as [[t n]|].
  - by rewrite !list_lookup_alter_ne.
Qed.

(** X7: a [try_acquire] that succeeds hands out the entry's handle, was
    preceded by [is_available] being true and is followed by it being false:
    asking again says [AKU_EBUSY] and changes nothing; dropping the handle
    restores the heap as it was before, and with it the availability. *)
Theorem try_acquire_exclusive_until_released (e : RegistryEntry) hp entry hp' :
  RegistryEntry_try_acquire e hp = (AKU_SUCCESS, entry, hp') →
  entry = Some (roots_ e) ∧
  RegistryEntry_is_available e hp = true ∧
  RegistryEntry_is_available e hp' = false ∧
  RegistryEntry_try_acquire e hp' = (AKU_EBUSY, None, hp') ∧
  release_ref (roots_ e) hp' = hp.
Proof.
  unfold RegistryEntry_try_acquire.
  destruct (RegistryEntry_is_available e hp) eqn:Hav; [|done].
  intros [= <- <-].
  unfold RegistryEntry_is_available in Hav |- *.
  destruct (hp !! roots_ e) as [b|] eqn:Hb; [|done].
  apply bool_decide_eq_true in Hav.
  assert (Hbusy : (match acquire_ref (roots_ e) hp !! roots_ e with
                   | Some b0 => bool_decide (use_count b0 = 1%nat)
                   | None => false
                   end) = false).
  { unfold acquire_ref. rewrite list_lookup_alter_eq, Hb. simpl. by rewrite Hav. }
  rewrite Hbusy. split_and!; try done.
  apply release_acquire_ref.
Qed.

(** ** Closing a session *)

(** X8: [close] takes the session out of [active_], keeps the order of the
    others, and touches nothing else: the heap, the sessions and their
    caches, the catalog, the table, the rescue points and the metadata store
    are what they were; on a registry that is gone it does nothing; a second
    [close] does nothing more. *)
Theorem close_unregisters_only tok w :
  let w' := IngestionSession_close tok w in
  IngestionSession_close tok w' = w' ∧
  heap w' = heap w ∧ sessions w' = sessions w ∧ external w' = external w ∧
  match registry w, registry w' with
  | Some reg, Some reg' =>
      (tok ∉ active_ reg') ∧
      active_ reg' = filter (λ t, t ≠ tok) (active_ reg) ∧
      (∀ t, t ≠ tok → (t ∈ active_ reg' ↔ t ∈ active_ reg)) ∧
      global_matcher_ reg' = global_matcher_ reg ∧ table_ reg' = table_ reg ∧
      rescue_points_ reg' = rescue_points_ reg ∧ metadata_ reg' = metadata_ reg
  | None, None => True
  | _, _ => False
  end.
Proof.
  unfold IngestionSession_close. destruct (registry w) as [reg|] eqn:Hreg; simpl.
  - split_and!; try done.
    + unfold TreeRegistry_remove_dispatcher, set_registry. simpl.
      do 3 f_equal.
      rewrite list_filter_filter. apply list_filter_iff. intros t. tauto.
    + intros [? _]%list_elem_of_filter. done.
    + intros t Hne. rewrite list_elem_of_filter. tauto.
  - by rewrite Hreg.
Qed.

(** ** Flush signalling *)

(** X9: a [write] to a cached series whose append asks for a flush returns
    [AKU_SUCCESS] and leaves the roots of the extent list, read after the
    append, as the buffered rescue points of the id; a
    [wait_for_sync_request] that is woken then returns [AKU_SUCCESS], one
    that times out [AKU_ETIMEOUT]. *)
Theorem write_flush_signals_sync self s sample h (b : SharedBlock)
    (tree : NBTreeExtentsList) reg w :
  sessions w !! self = Some s →
  payload_type sample = AKU_PAYLOAD_FLOAT →
  cache_ s !! paramid sample = Some h →
  heap w !! h = Some b →
  nbtree_append (timestamp sample) (float64 sample) (pointee b) = (OK_FLUSH_NEEDED, tree) →
  registry w = Some reg →
  ∃ w' reg',
    IngestionSession_write self sample w = Ret AKU_SUCCESS w' ∧
    registry w' = Some reg' ∧
    rescue_points_ reg' !! paramid sample = Some (nbtree_get_roots tree) ∧
    TreeRegistry_wait_for_sync_request cv_no_timeout reg' = AKU_SUCCESS ∧
    TreeRegistry_wait_for_sync_request cv_timeout reg' = AKU_ETIMEOUT.
Proof.
  intros Hs Hfloat Hhit Hb Happ Hreg.
  do 2 eexists. split; [by eapply write_flush_cached|]. simpl.
  split_and!; try done.
  - apply lookup_insert_eq.
  - unfold TreeRegistry_wait_for_sync_request. simpl.
    rewrite decide_False; [done|]. apply insert_non_empty.
Qed.

(** ** Names *)

(** X10: for an id that neither the session's matcher nor the registry's
    (if there still is a registry) knows, [get_series_name] returns [0] and
    leaves the buffer and the whole state as they were, whatever the buffer
    size. *)
Theorem get_series_name_unknown_id tok s id (buffer : list ascii) (buffer_size : Z) w :
  sessions w !! tok = Some s →
  SeriesMatcher.id2str id (local_matcher_ s) = None →
  (∀ reg, registry w = Some reg →
          SeriesMatcher.id2str id (global_matcher_ reg) = None) →
  IngestionSession_get_series_name tok id buffer buffer_size w = Ret (0, buffer) w.
Proof.
  intros Hs Hlocal Hglobal. unfold IngestionSession_get_series_name.
  rewrite Hs, Hlocal. destruct (registry w) as [reg|]; [|done].
  unfold TreeRegistry_get_series_name. rewrite (Hglobal reg eq_refl).
  rewrite set_session_same; [done|]. rewrite Hs. by destruct s.
Qed.

(** X11: [TreeRegistry::get_series_name] for a known id and a buffer whose
    size is given truthfully and is below [2^31]: if the name fits it is
    copied to the start of the buffer, the rest of the buffer is kept and
    the length is returned; if not, the negated length is returned and the
    buffer is untouched; it never overruns, and in both cases the name is
    mirrored into the local matcher. *)
Theorem registry_get_series_name_contract id (name : string) (buffer : list ascii)
    (local_matcher : SeriesMatcher.t) reg :
  SeriesMatcher.id2str id (global_matcher_ reg) = Some name →
  Z.of_nat (length buffer) < 2 ^ 31 →
  TreeRegistry_get_series_name id buffer (Z.of_nat (length buffer)) local_matcher reg
  = (inr (if decide (String.length name ≤ length buffer)%nat
          then (Z.of_nat (String.length name),
                String.list_ascii_of_string name ++ drop (String.length name) buffer)
          else (- Z.of_nat (String.length name), buffer)),
     SeriesMatcher._add name id local_matcher).
Proof.
  intros Hname Hint. unfold TreeRegistry_get_series_name. rewrite Hname.
  rewrite static_cast_int_small by lia.
  destruct (decide (String.length name ≤ length buffer)%nat) as [Hfit|Hfit].
  - rewrite decide_False by lia. by rewrite memcpy_fits.
  - rewrite decide_True by lia. repeat f_equal; lia.
Qed.

(** X12: a [buffer_size] from [2^31] up to [2^32 - 1] becomes negative in
    [static_cast<int>]: [TreeRegistry::get_series_name] then reports every
    known name, even the empty one, as not fitting, returns the negated
    length and copies nothing. *)
Theorem registry_get_series_name_int_overflow id (name : string) (buffer : list ascii)
    (buffer_size : Z) (local_matcher : SeriesMatcher.t) reg :
  SeriesMatcher.id2str id (global_matcher_ reg) = Some name →
  2 ^ 31 ≤ buffer_size < 2 ^ 32 →
  TreeRegistry_get_series_name id buffer buffer_size local_matcher reg
  = (inr (- Z.of_nat (String.length name), buffer),
     SeriesMatcher._add name id local_matcher).
Proof.
  intros Hname Hsize. unfold TreeRegistry_get_series_name. rewrite Hname.
  assert (Hcast : static_cast_int buffer_size = buffer_size - 2 ^ 32).
  { unfold static_cast_int.
    replace (buffer_size + 2 ^ 31) with ((buffer_size - 2 ^ 31) + 1 * 2 ^ 32) by lia.
    rewrite Z.mod_add by lia. rewrite Z.mod_small; lia. }
  rewrite Hcast, decide_True by lia. repeat f_equal; lia.
Qed.


(** ** Faults of [write] in reachable states *)

Lemma broadcast_loop_returns (active : list nat) sample source w :
  (∀ tok s h, sessions w !! tok = Some s → cache_ s !! paramid sample = Some h →
              is_Some (heap w !! h)) →
  ∃ r w', broadcast_loop active sample source w = Ret r w'.
Proof.
  intros Hvalid. induction active as [|tok rest IH]; simpl; [eauto|].
  destruct (sessions w !! tok) as [s|] eqn:Hs; [|done].
  destruct (decide (tok ≠ source)); [|done].
  unfold IngestionSession_receive_broadcast. rewrite Hs.
  destruct (cache_ s !! paramid sample) as [h|] eqn:Hh; [|done].
  destruct (Hvalid tok s h Hs Hh) as [b Hb].
  unfold append_at. rewrite Hb. destruct (nbtree_append _ _ _). simpl. eauto.
Qed.

(** X13: in a reachable state a [write] of a live session never touches a
    dangling handle: if it faults at all, the fault is the dereference of
    the end iterator, the sample is a float sample and its id was not in the
    session's cache when [write] started. *)
Theorem write_faults_only_by_stale_iterator self s sample w f w' :
  Reachable w →
  sessions w !! self = Some s →
  IngestionSession_write self sample w = Crash f w' →
  f = EndIteratorDeref ∧ cache_ s !! paramid sample = None ∧
  payload_type sample = AKU_PAYLOAD_FLOAT.
Proof.
  intros (v & Hv & Hok)%Reachable_view_ok Hs.
  destruct (view_of_Some _ _ Hv) as [reg Hreg].
  assert (Hvalid : ∀ tok s' h, sessions w !! tok = Some s' →
            cache_ s' !! paramid sample = Some h → is_Some (heap w !! h)).
  { intros tok s' h Hs' Hh.
    destruct (held_handle _ _ _ _ _ _ _ Hv Hok Hreg Hs' Hh) as (_ & b & _ & _ & Hb & _).
    eauto. }
  unfold IngestionSession_write. rewrite Hs.
  case_decide as Hfloat; [done|].
  assert (payload_type sample = AKU_PAYLOAD_FLOAT) as Hfl.
  { destruct (payload_type sample); [done|]. by destruct Hfloat. }
  destruct (cache_ s !! paramid sample) as [h|] eqn:Hit.
  - (* cached: no fault at all *)
    destruct (Hvalid self s h Hs Hit) as [b Hb].
    unfold write_dispatch, append_at. rewrite Hb.
    destruct (nbtree_append _ _ _) as [r tree]. simpl.
    unfold write_interpret. simpl.
    rewrite list_lookup_insert_eq by (by eapply lookup_lt_Some).
    rewrite Hreg. by destruct r.
  - unfold write_dispatch. rewrite Hreg.
    unfold TreeRegistry_try_acquire.
    destruct (table_ reg !! paramid sample) as [e|]; [|done].
    unfold RegistryEntry_try_acquire, RegistryEntry_is_available.
    destruct (heap w !! roots_ e) as [b|] eqn:Hb.
    + case_bool_decide.
      * simpl. unfold append_at. simpl. unfold acquire_ref.
        rewrite list_lookup_alter_eq, Hb. simpl.
        destruct (nbtree_append _ _ _) as [r tree]. simpl.
        unfold write_interpret. simpl. destruct r; try done.
        by intros [= <- _].
      * simpl. rewrite set_heap_same. unfold TreeRegistry_broadcast_sample.
        destruct (broadcast_loop_returns (active_ reg) sample self w Hvalid)
          as (r & w1 & ->).
        simpl. unfold write_interpret. simpl. destruct r; try done.
        by intros [= <- _].
    + simpl. rewrite set_heap_same. unfold TreeRegistry_broadcast_sample.
      destruct (broadcast_loop_returns (active_ reg) sample self w Hvalid)
        as (r & w1 & ->).
      simpl. unfold write_interpret. simpl. destruct r; try done.
      by intros [= <- _].
Qed.


(** ** Reference counts in reachable states *)

Lemma foldr_alter_pred_in (l : list nat) (cs : list nat) (h : nat) :
  NoDup l → h ∈ l → foldr (alter pred) cs l !! h = pred <$> cs !! h.
Proof.
  induction l as [|x l IH]; simpl; [by intros _ ?%elem_of_nil|].
  intros [Hx Hl]%NoDup_cons [->|Hin]%elem_of_cons.
  - rewrite list_lookup_alter_eq. by rewrite foldr_alter_pred_notin.
  - rewrite list_lookup_alter_ne by (intros ->; done). by apply IH.
Qed.

Lemma cache_range_NoDup v tok (c : gmap Z nat) :
  view_ok v → caches v !! tok = Some c → NoDup ((map_to_list c).*2).
Proof.
  intros Hok Hc. apply NoDup_fmap_2_strong; [|apply NoDup_map_to_list].
  intros [id1 h1] [id2 h2] H1%elem_of_map_to_list H2%elem_of_map_to_list. simpl.
  intros <-. f_equal.
  destruct (own_held _ Hok _ _ _ _ Hc H1) as [Ht1 _].
  destruct (own_held _ Hok _ _ _ _ Hc H2) as [Ht2 _].
  by eapply (own_inj _ Hok).
Qed.

Lemma counts_bounded_VStep v v' :
  view_ok v → (∀ h n, counts v !! h = Some n → n = 1%nat ∨ n = 2%nat) →
  VStep v v' → ∀ h n, counts v' !! h = Some n → n = 1%nat ∨ n = 2%nat.
Proof.
  intros Hok Hb Hstep h' n. destruct Hstep; simpl; try apply Hb.
  - (* grant *)
    destruct (decide (h' = h)) as [->|Hne].
    + rewrite list_lookup_alter_eq. rewrite H2. simpl. intros [= <-]. by right.
    + rewrite list_lookup_alter_ne by done. apply Hb.
  - destruct (decide (h' = h)) as [->|Hne].
    + rewrite list_lookup_alter_eq. rewrite H0. simpl. intros [= <-]. by right.
    + rewrite list_lookup_alter_ne by done. apply Hb.
  - destruct (decide (h' = h)) as [->|Hne].
    + rewrite list_lookup_alter_eq.
      destruct (own_ext _ Hok h) as (_ & m & Hm & Hm1).
      { rewrite H. apply elem_of_app. right. by left. }
      rewrite Hm. simpl. intros [= <-].
      destruct (Hb _ _ Hm) as [->| ->]; [done|by left].
    + rewrite list_lookup_alter_ne by done. apply Hb.
  - (* delete *)
    destruct (decide (h' ∈ (map_to_list c).*2)) as [Hin|Hnot].
    + rewrite foldr_alter_pred_in; [|by eapply cache_range_NoDup|done].
      apply list_elem_of_fmap in Hin as ([id h0] & -> & Hin%elem_of_map_to_list).
      destruct (own_held _ Hok _ _ _ _ H Hin) as (_ & m & Hm & Hm1). simpl.
      rewrite Hm. simpl. intros [= <-].
      destruct (Hb _ _ Hm) as [->| ->]; [done|by left].
    + rewrite foldr_alter_pred_notin by done. apply Hb.
  - (* register *)
    intros [Hl|[_ Hr]]%lookup_app_Some; [by eapply Hb|].
    apply list_lookup_singleton_Some in Hr as [_ <-]. by left.
Qed.

Lemma counts_bounded_rtc v v' :
  rtc VStep v v' → view_ok v →
  (∀ h n, counts v !! h = Some n → n = 1%nat ∨ n = 2%nat) →
  ∀ h n, counts v' !! h = Some n → n = 1%nat ∨ n = 2%nat.
Proof.
  intros Hsteps. induction Hsteps as [|v1 v2 v3 Hstep _ IH]; [done|].
  intros Hok Hb. apply IH.
  - by eapply view_ok_VStep.
  - by eapply counts_bounded_VStep.
Qed.

Lemma Reachable_counts_bounded w h (b : SharedBlock) :
  Reachable w → heap w !! h = Some b → use_count b = 1%nat ∨ use_count b = 2%nat.
Proof.
  intros [meta Hsteps] Hb.
  destruct (initial_view_ok meta) as (v0 & Hv0 & Hok0).
  destruct (steps_view _ _ _ Hsteps Hv0 Hok0) as (v & Hv & Hvs).
  assert (Hb0 : ∀ h n, counts v0 !! h = Some n → n = 1%nat ∨ n = 2%nat).
  { unfold view_of in Hv0. simpl in Hv0. injection Hv0 as <-. simpl.
    intros h0 n. by rewrite lookup_nil. }
  pose proof (counts_bounded_rtc _ _ Hvs Hok0 Hb0 h (use_count b)) as Hbd.
  apply Hbd. destruct (view_of_Some _ _ Hv) as [reg Hreg].
  unfold view_of in Hv. rewrite Hreg in Hv. injection Hv as <-. simpl.
  by rewrite list_lookup_fmap, Hb.
Qed.

(** X14: in a reachable state, when the deleter of a session has run, the
    session is neither alive nor registered, and every series it had in its
    cache is free again: [try_acquire] for the id succeeds with the same
    handle. *)
Theorem deleter_releases_ownership w reg tok s id h :
  Reachable w →
  registry w = Some reg →
  sessions w !! tok = Some s →
  cache_ s !! id = Some h →
  let w' := session_deleter tok w in
  sessions w' !! tok = None ∧
  ∃ reg', registry w' = Some reg' ∧ (tok ∉ active_ reg') ∧
    TreeRegistry_try_acquire id reg' (heap w')
    = (AKU_SUCCESS, Some h, acquire_ref h (heap w')).
Proof.
  intros Hreach Hreg Hs Hh. simpl.
  destruct (Reachable_view_ok _ Hreach) as (v & Hv & Hok).
  destruct (held_handle _ _ _ _ _ _ _ Hv Hok Hreg Hs Hh) as (e & b & He & <- & Hb & Hne).
  assert (Htwo : use_count b = 2%nat).
  { destruct (Reachable_counts_bounded _ _ _ Hreach Hb); [done|done]. }
  unfold session_deleter, IngestionSession_close. rewrite Hreg. simpl. rewrite Hs. simpl.
  split; [apply lookup_delete_eq|].
  eexists. split; [done|]. split.
  { simpl. intros [? _]%list_elem_of_filter. done. }
  assert (Hcount : (use_count <$> release_all (cache_ s) (heap w)) !! roots_ e = Some 1%nat).
  { rewrite fmap_release_all. rewrite foldr_alter_pred_in.
    - rewrite list_lookup_fmap, Hb. simpl. by rewrite Htwo.
    - eapply (cache_range_NoDup v tok); [done|].
      unfold view_of in Hv. rewrite Hreg in Hv. injection Hv as <-. simpl.
      by rewrite lookup_fmap, Hs.
    - apply list_elem_of_fmap. exists (id, roots_ e). split; [done|].
      by apply elem_of_map_to_list. }
  rewrite list_lookup_fmap in Hcount.
  destruct (release_all (cache_ s) (heap w) !! roots_ e) as [b'|] eqn:Hb'; [|done].
  injection Hcount as Hcount.
  unfold TreeRegistry_try_acquire. simpl. rewrite He.
  unfold RegistryEntry_try_acquire, RegistryEntry_is_available. rewrite Hb'.
  by rewrite bool_decide_eq_true_2.
Qed.


(** ** Creating a series and writing to it *)

(** X15: in a reachable state, [init_series_id] of a live session on a name
    the catalog does not know returns the next fresh id, and a [write] of
    that session for this id, right after, takes the new extent list: the
    status is that of the append (short of a flush request), the id is in
    the session's cache with the new handle, and the new block, with the
    sample appended to the empty extent list and two references, is the last
    of the heap. *)
Theorem create_then_write w reg tok s raw name sample :
  Reachable w →
  registry w = Some reg →
  sessions w !! tok = Some s →
  to_normal_form raw = (AKU_SUCCESS, name) →
  SeriesMatcher.match_ name (global_matcher_ reg) = 0 →
  let id := SeriesMatcher.series_id (global_matcher_ reg) in
  ∃ w1,
    IngestionSession_init_series_id tok raw sample w
    = Ret (AKU_SUCCESS,
           mk_sample id (timestamp sample) (payload_type sample) (float64 sample)) w1 ∧
    ∀ ts value (r : NBTreeAppendResult) (tree : NBTreeExtentsList),
      nbtree_append ts value (nbtree_new id []) = (r, tree) →
      r ≠ OK_FLUSH_NEEDED →
      ∃ w2 s2,
        IngestionSession_write tok (mk_sample id ts AKU_PAYLOAD_FLOAT value) w1
        = Ret (match r with
               | FAIL_LATE_WRITE => AKU_ELATE_WRITE
               | FAIL_BAD_ID => AKU_ENOT_FOUND
               | _ => AKU_SUCCESS
               end) w2 ∧
        sessions w2 !! tok = Some s2 ∧
        cache_ s2 !! id = Some (length (heap w)) ∧
        heap w2 = heap w ++ [mk_block tree 2].
Proof.
  intros (v & Hv & Hok)%Reachable_view_ok Hreg Hs Hnf Hnew. simpl.
  pose proof Hv as Hv0. unfold view_of in Hv0. rewrite Hreg in Hv0. injection Hv0 as <-.
  assert (Hlocal : SeriesMatcher.match_ name (local_matcher_ s) = 0).
  { unfold SeriesMatcher.match_ in *.
    destruct (SeriesMatcher.table (local_matcher_ s) !! name) as [i|] eqn:Hi; [|done].
    pose proof (names_local_fwd _ Hok tok (SeriesMatcher.table (local_matcher_ s)) name i)
      as Hf. simpl in Hf. rewrite lookup_fmap, Hs in Hf.
    specialize (Hf eq_refl Hi). rewrite Hf in Hnew. simpl in Hnew. subst.
    apply (names_range _ Hok) in Hf. lia. }
  assert (Hmiss : cache_ s !! SeriesMatcher.series_id (global_matcher_ reg) = None).
  { destruct (cache_ s !! _) as [h|] eqn:Hh; [|done].
    destruct (own_held _ Hok tok (cache_ s)
                (SeriesMatcher.series_id (global_matcher_ reg)) h) as [Ht _]; simpl.
    { by rewrite lookup_fmap, Hs. }
    { done. }
    apply (own_fresh _ Hok) in Ht. simpl in Ht. lia. }
  eexists. split.
  { unfold IngestionSession_init_series_id. rewrite Hs, Hnf.
    rewrite decide_False by (by intros []). rewrite decide_True by done.
    rewrite Hreg. unfold TreeRegistry_init_series_id. rewrite decide_True by done.
    simpl. done. }
  intros ts value r tree Happ Hr.
  do 2 eexists. split.
  - unfold IngestionSession_write. simpl. rewrite lookup_insert_eq.
    simpl. rewrite Hmiss.
    erewrite (write_dispatch_acquires tok _ _ _
                (mk_entry (length (heap w)))
                (mk_block (nbtree_new (SeriesMatcher.series_id (global_matcher_ reg)) []) 1)
                r tree); simpl; try done.
    + unfold write_interpret. rewrite decide_True by done. by destruct r.
    + apply lookup_insert_eq.
    + by rewrite list_lookup_middle.
  - simpl. rewrite lookup_insert_eq. split; [done|]. simpl.
    rewrite lookup_insert_eq. split; [done|].
    rewrite insert_app_r_alt by done. by rewrite Nat.sub_diag.
Qed.

(** ** Local catalogs *)

Lemma local_bij_VStep v v' :
  view_ok v →
  (∀ tok lt li n i, ltables v !! tok = Some lt → linvs v !! tok = Some li →
                    (lt !! n = Some i ↔ li !! i = Some n)) →
  VStep v v' →
  ∀ tok lt li n i, ltables v' !! tok = Some lt → linvs v' !! tok = Some li →
                   (lt !! n = Some i ↔ li !! i = Some n).
Proof.
  intros Hok Hb Hstep tok0 lt0 li0 n i. destruct Hstep; simpl; try apply Hb.
  - rewrite !lookup_insert. case_decide; [|apply Hb].
    intros [= <-] [= <-]. by rewrite !lookup_empty.
  - rewrite !lookup_delete. case_decide; [done|apply Hb].
  - rewrite !lookup_insert. case_decide as Htok; [subst|apply Hb].
    intros [= <-] [= <-]. rewrite !lookup_insert.
    pose proof (Hb _ _ _ n i H H0) as Hold.
    repeat case_decide; subst.
    + done.
    + split; [by intros [= <-]|]. intros Hi. apply Hold in Hi.
      pose proof (names_local_fwd _ Hok _ _ _ _ H Hi). congruence.
    + split; [|by intros [= <-]]. intros Hn.
      pose proof (names_local_fwd _ Hok _ _ _ _ H Hn) as Hg.
      apply (names_bij _ Hok) in Hg. congruence.
    + done.
Qed.

Lemma local_bij_rtc v v' :
  rtc VStep v v' → view_ok v →
  (∀ tok lt li n i, ltables v !! tok = Some lt → linvs v !! tok = Some li →
                    (lt !! n = Some i ↔ li !! i = Some n)) →
  ∀ tok lt li n i, ltables v' !! tok = Some lt → linvs v' !! tok = Some li →
                   (lt !! n = Some i ↔ li !! i = Some n).
Proof.
  intros Hsteps. induction Hsteps as [|v1 v2 v3 Hstep _ IH]; [done|].
  intros Hok Hb. apply IH.
  - by eapply view_ok_VStep.
  - by eapply local_bij_VStep.
Qed.

Lemma Reachable_local_bij w tok s (n : string) (i : Z) :
  Reachable w → sessions w !! tok = Some s →
  SeriesMatcher.table (local_matcher_ s) !! n = Some i
  ↔ SeriesMatcher.inv_table (local_matcher_ s) !! i = Some n.
Proof.
  intros [meta Hsteps] Hs.
  destruct (initial_view_ok meta) as (v0 & Hv0 & Hok0).
  destruct (steps_view _ _ _ Hsteps Hv0 Hok0) as (v & Hv & Hvs).
  assert (Hb0 : ∀ tok lt li n i, ltables v0 !! tok = Some lt → linvs v0 !! tok = Some li →
                  (lt !! n = Some i ↔ li !! i = Some n)).
  { unfold view_of in Hv0. simpl in Hv0. injection Hv0 as <-. simpl.
    intros tok0 lt li n0 i0. by rewrite fmap_empty, lookup_empty. }
  destruct (view_of_Some _ _ Hv) as [reg Hreg].
  unfold view_of in Hv. rewrite Hreg in Hv. injection Hv as <-.
  eapply (local_bij_rtc _ _ Hvs Hok0 Hb0 tok); simpl; by rewrite lookup_fmap, Hs.
Qed.

(** What a successful [init_series_id] leaves in the session's own catalog. *)
Lemma init_series_id_caches_locally tok raw name sample sample' w w1 v :
  view_of w = Some v → view_ok v →
  to_normal_form raw = (AKU_SUCCESS, name) →
  IngestionSession_init_series_id tok raw sample w = Ret (AKU_SUCCESS, sample') w1 →
  paramid sample' ≠ 0 ∧
  ∃ s1, sessions w1 !! tok = Some s1 ∧
        SeriesMatcher.table (local_matcher_ s1) !! name = Some (paramid sample').
Proof.
  intros Hv Hok Hnf. unfold IngestionSession_init_series_id.
  destruct (sessions w !! tok) as [s|] eqn:Hs; [|done].
  rewrite Hnf, decide_False by (by intros []).
  case_decide as Hlocal.
  - destruct (view_of_Some _ _ Hv) as [reg Hreg]. rewrite Hreg.
    unfold view_of in Hv. rewrite Hreg in Hv. injection Hv as <-.
    unfold TreeRegistry_init_series_id.
    case_decide as Hglobal; simpl; intros [= <- <-]; simpl.
    + split; [pose proof (names_next _ Hok) as Hn; simpl in Hn; lia|].
      eexists. rewrite lookup_insert_eq. split; [done|]. simpl. apply lookup_insert_eq.
    + split; [done|].
      eexists. rewrite lookup_insert_eq. split; [done|]. simpl. apply lookup_insert_eq.
  - intros [= <- <-]. simpl. split; [done|]. exists s. split; [done|].
    by apply match_nonzero.
Qed.

(** X16: a name for which [init_series_id] of a session has succeeded is in
    that session's own matcher: with the registry gone, [init_series_id] of
    the session for that name still returns the same id, and
    [get_series_name] for the id still copies the name, both without
    changing anything; for a name the session has not seen, [init_series_id]
    then returns [AKU_ECLOSED] and leaves the sample as it was. *)
Theorem local_names_survive_teardown w tok raw name sample sample' w1 w2 :
  Reachable w →
  to_normal_form raw = (AKU_SUCCESS, name) →
  IngestionSession_init_series_id tok raw sample w = Ret (AKU_SUCCESS, sample') w1 →
  registry w2 = None →
  sessions w2 !! tok = sessions w1 !! tok →
  (∀ sample2,
     IngestionSession_init_series_id tok raw sample2 w2
     = Ret (AKU_SUCCESS,
            mk_sample (paramid sample') (timestamp sample2) (payload_type sample2)
                      (float64 sample2)) w2) ∧
  (∀ (buffer : list ascii) (buffer_size : Z),
     (String.length name ≤ length buffer)%nat →
     IngestionSession_get_series_name tok (paramid sample') buffer buffer_size w2
     = Ret (Z.of_nat (String.length name),
            String.list_ascii_of_string name ++ drop (String.length name) buffer) w2) ∧
  (∀ s2 raw' name' sample2,
     sessions w2 !! tok = Some s2 →
     to_normal_form raw' = (AKU_SUCCESS, name') →
     SeriesMatcher.match_ name' (local_matcher_ s2) = 0 →
     IngestionSession_init_series_id tok raw' sample2 w2 = Ret (AKU_ECLOSED, sample2) w2).
Proof.
  intros Hreach Hnf Hinit Hgone Hsame.
  destruct (Reachable_view_ok _ Hreach) as (v & Hv & Hok).
  destruct (init_series_id_caches_locally _ _ _ _ _ _ _ _ Hv Hok Hnf Hinit)
    as (Hnz & s1 & Hs1 & Hname).
  assert (Hreach1 : Reachable w1).
  { destruct Hreach as [meta Hsteps]. exists meta.
    eapply rtc_r; [done|]. by eapply step_init_series_id. }
  pose proof (proj1 (Reachable_local_bij w1 tok s1 name (paramid sample') Hreach1 Hs1) Hname)
    as Hinv.
  rewrite Hs1 in Hsame. split_and!.
  - intros sample2. unfold IngestionSession_init_series_id.
    rewrite Hsame, Hnf, decide_False by (by intros []).
    unfold SeriesMatcher.match_. rewrite Hname. simpl.
    by rewrite decide_False.
  - intros buffer buffer_size Hfit. unfold IngestionSession_get_series_name.
    rewrite Hsame. unfold SeriesMatcher.id2str. rewrite Hinv.
    by rewrite memcpy_fits.
  - intros s2 raw' name' sample2 Hs2 Hnf' Hunknown.
    unfold IngestionSession_init_series_id.
    rewrite Hs2, Hnf', decide_False by (by intros []).
    by rewrite decide_True, Hgone.
Qed.

(** ** The registered sessions *)

Lemma init_series_id_keeps_sessions tok raw sample w r w' :
  IngestionSession_init_series_id tok raw sample w = Ret r w' →
  active_ <$> registry w' = active_ <$> registry w ∧
  ∀ t, is_Some (sessions w' !! t) ↔ is_Some (sessions w !! t).
Proof.
  unfold IngestionSession_init_series_id.
  destruct (sessions w !! tok) as [s|] eqn:Hs; [|done].
  destruct (to_normal_form raw) as [status name].
  case_decide; [by intros [= _ <-]|].
  case_decide; [|by intros [= _ <-]].
  destruct (registry w) as [reg|] eqn:Hreg; [|by intros [= _ <-]; rewrite Hreg].
  unfold TreeRegistry_init_series_id.
  case_decide; simpl; intros [= _ <-]; simpl; (split; [done|]);
    intros t; rewrite lookup_insert; case_decide; subst; rewrite ?Hs; done.
Qed.

Lemma get_series_name_keeps_sessions tok id (buffer : list ascii) (size : Z) w r w' :
  IngestionSession_get_series_name tok id buffer size w = Ret r w' →
  registry w' = registry w ∧
  ∀ t, is_Some (sessions w' !! t) ↔ is_Some (sessions w !! t).
Proof.
  unfold IngestionSession_get_series_name.
  destruct (sessions w !! tok) as [s|] eqn:Hs; [|done].
  destruct (SeriesMatcher.id2str id (local_matcher_ s)).
  { destruct (memcpy buffer s0); [|done]. by intros [= _ <-]. }
  destruct (registry w) as [reg|] eqn:Hreg; [|by intros [= _ <-]].
  destruct (TreeRegistry_get_series_name id buffer size (local_matcher_ s) reg)
    as [[f|out] lm]; [done|].
  intros [= _ <-]. simpl. split; [done|].
  intros t. rewrite lookup_insert. case_decide; subst; rewrite ?Hs; done.
Qed.

Lemma active_ok_Step w w' :
  Step w w' →
  (∀ reg, registry w = Some reg →
          NoDup (active_ reg) ∧ ∀ t, t ∈ active_ reg → is_Some (sessions w !! t)) →
  ∀ reg', registry w' = Some reg' →
          NoDup (active_ reg') ∧ ∀ t, t ∈ active_ reg' → is_Some (sessions w' !! t).
Proof.
  intros Hstep Hinv. destruct Hstep as
    [w ptr w' Hc | w tok Htok | w tok Htok | w tok raw sample r w' Hi
    | w tok id buffer size r w' Hg | w tok sample status w' Hw
    | w tok sample r w' Hr | w reg id status entry hp Hreg Hacq
    | w ex1 h ex2 Hex | w reg id addrlist Hreg
    | w reg b1 b2 out reg1 Hreg Hsync].
  - (* create_session *)
    unfold TreeRegistry_create_session in Hc.
    destruct (registry w) as [reg|] eqn:Hreg; [|done].
    injection Hc as <- <-. simpl. intros reg' [= <-]. simpl.
    destruct (Hinv reg eq_refl) as [Hnd Hlive].
    assert (Hfresh : sessions w !! fresh (dom (sessions w)) = None).
    { apply not_elem_of_dom, is_fresh. }
    assert (Hnotin : fresh (dom (sessions w)) ∉ active_ reg).
    { intros Hin. destruct (Hlive _ Hin) as [x Hx]. congruence. }
    unfold active_insert. rewrite decide_False by done. split.
    + apply NoDup_app. split_and!; [done| |apply NoDup_singleton].
      intros t Hin ->%list_elem_of_singleton. done.
    + intros t [Hin| ->%list_elem_of_singleton]%elem_of_app.
      * rewrite lookup_insert_ne; [by apply Hlive|]. by intros <-.
      * by rewrite lookup_insert_eq.
  - (* close *)
    unfold IngestionSession_close.
    destruct (registry w) as [reg|] eqn:Hreg; [|by rewrite Hreg].
    simpl. intros reg' [= <-]. simpl. destruct (Hinv reg eq_refl) as [Hnd Hlive].
    split; [by apply NoDup_filter|].
    intros t [_ Hin]%list_elem_of_filter. by apply Hlive.
  - (* the deleter *)
    unfold session_deleter, IngestionSession_close.
    destruct Htok as [s Hs].
    destruct (registry w) as [reg|] eqn:Hreg; simpl; rewrite Hs; simpl;
      [|by rewrite Hreg].
    intros reg' [= <-]. simpl. destruct (Hinv reg eq_refl) as [Hnd Hlive].
    split; [by apply NoDup_filter|].
    intros t [Hne Hin]%list_elem_of_filter.
    rewrite lookup_delete_ne by done. by apply Hlive.
  - destruct (init_series_id_keeps_sessions _ _ _ _ _ _ Hi) as [Hact Hdom].
    intros reg' Hreg'. rewrite Hreg' in Hact. simpl in Hact.
    destruct (registry w) as [reg|]; [|done]. injection Hact as Hact.
    destruct (Hinv reg eq_refl) as [Hnd Hlive]. rewrite Hact. split; [done|].
    intros t Hin. apply Hdom. by apply Hlive.
  - destruct (get_series_name_keeps_sessions _ _ _ _ _ _ _ Hg) as [Hact Hdom].
    intros reg' Hreg'. rewrite Hact in Hreg'.
    destruct (Hinv reg' Hreg') as [Hnd Hlive]. split; [done|].
    intros t Hin. apply Hdom. by apply Hlive.
  - destruct (write_keeps_sessions _ _ _ _ _ Hw) as [Hact Hlive'].
    intros reg' Hreg'. rewrite Hreg' in Hact. simpl in Hact.
    destruct (registry w) as [reg|]; [|done]. injection Hact as Hact.
    destruct (Hinv reg eq_refl) as [Hnd Hlive]. rewrite Hact. split; [done|].
    intros t Hin. by apply Hlive', Hlive.
  - apply receive_broadcast_shape in Hr as (Hr1 & Hr2 & _).
    intros reg'. rewrite Hr1, Hr2. apply Hinv.
  - simpl. apply Hinv.
  - simpl. apply Hinv.
  - simpl. intros reg' [= <-]. simpl. by apply Hinv.
  - simpl. intros reg' [= <-].
    assert (active_ reg1 = active_ reg) as ->.
    { unfold TreeRegistry_sync_with_metadata_storage in Hsync.
      destruct b1, b2; simpl in Hsync; by injection Hsync as _ <-. }
    by apply Hinv.
Qed.

Lemma active_ok_rtc w w' :
  rtc Step w w' →
  (∀ reg, registry w = Some reg →
          NoDup (active_ reg) ∧ ∀ t, t ∈ active_ reg → is_Some (sessions w !! t)) →
  ∀ reg', registry w' = Some reg' →
          NoDup (active_ reg') ∧ ∀ t, t ∈ active_ reg' → is_Some (sessions w' !! t).
Proof.
  intros Hsteps. induction Hsteps as [|w1 w2 w3 Hstep _ IH]; [done|].
  intros Hinv. apply IH. by eapply active_ok_Step.
Qed.

Lemma initial_active_ok (meta : MetadataStorage.t) reg :
  registry (initial_world meta) = Some reg →
  NoDup (active_ reg) ∧
  ∀ t, t ∈ active_ reg → is_Some (sessions (initial_world meta) !! t).
Proof.
  simpl. intros [= <-]. simpl. split; [apply NoDup_nil_2|].
  intros t Hin. by apply elem_of_nil in Hin.
Qed.

(** X17: in a reachable state every session in [active_] is alive and is
    there once: the [lock()] in [broadcast_sample] succeeds for each of
    them, and no session is offered the same sample twice. *)
Theorem active_sessions_alive_once w reg :
  Reachable w → registry w = Some reg →
  NoDup (active_ reg) ∧ ∀ tok, tok ∈ active_ reg → is_Some (sessions w !! tok).
Proof.
  intros [meta Hsteps] Hreg.
  eapply (active_ok_rtc _ _ Hsteps); [|done].
  apply initial_active_ok.
Qed.

(** X18: in a reachable state [create_session] succeeds; the new session has
    an address no live session has and that was not registered, it has
    empty caches, and afterwards [active_] holds exactly the sessions it
    held before and the new one, each once; the other sessions, the heap,
    the catalog, the table, the rescue points and the metadata store are
    what they were. *)
Theorem create_session_registers w reg :
  Reachable w → registry w = Some reg →
  ∃ ptr w' reg',
    TreeRegistry_create_session w = Some (ptr, w') ∧
    sessions w !! ptr = None ∧
    sessions w' !! ptr = Some (mk_session SeriesMatcher.empty ∅) ∧
    (∀ tok, tok ≠ ptr → sessions w' !! tok = sessions w !! tok) ∧
    registry w' = Some reg' ∧
    (ptr ∉ active_ reg) ∧
    (∀ tok, tok ∈ active_ reg' ↔ tok ∈ active_ reg ∨ tok = ptr) ∧
    NoDup (active_ reg') ∧
    heap w' = heap w ∧ external w' = external w ∧
    global_matcher_ reg' = global_matcher_ reg ∧ table_ reg' = table_ reg ∧
    rescue_points_ reg' = rescue_points_ reg ∧ metadata_ reg' = metadata_ reg.
Proof.
  intros [meta Hsteps] Hreg.
  destruct (active_ok_rtc _ _ Hsteps (initial_active_ok meta) reg Hreg) as [Hnd Hlive].
  assert (Hfresh : sessions w !! fresh (dom (sessions w)) = None).
  { apply not_elem_of_dom, is_fresh. }
  assert (Hnotin : fresh (dom (sessions w)) ∉ active_ reg).
  { intros Hin. destruct (Hlive _ Hin) as [x Hx]. congruence. }
  unfold TreeRegistry_create_session. rewrite Hreg.
  do 3 eexists. split; [done|]. simpl. split_and!; try done.
  - apply lookup_insert_eq.
  - intros tok Hne. by rewrite lookup_insert_ne.
  - intros tok. unfold active_insert. rewrite decide_False by done.
    simpl. rewrite elem_of_app, list_elem_of_singleton. done.
  - unfold active_insert. rewrite decide_False by done. simpl.
    apply NoDup_app. split_and!; [done| |apply NoDup_singleton].
    intros t Hin ->%list_elem_of_singleton. done.
Qed.

(** ** A peer's write and the owner's write *)

(** X19: in a reachable state, with the owner [B] registered, a [write] of
    another session [A] for a series of [B] gives, unless the append asks
    for a flush, the very result and state that the same [write] by [B]
    itself gives: the sample is appended to [B]'s extent list and nothing
    else changes. *)
Theorem write_by_peer_equals_write_by_owner w reg A B sA sB sample h (b : SharedBlock) :
  Reachable w →
  registry w = Some reg → B ∈ active_ reg →
  sessions w !! A = Some sA → sessions w !! B = Some sB → A ≠ B →
  payload_type sample = AKU_PAYLOAD_FLOAT →
  cache_ sB !! paramid sample = Some h →
  heap w !! h = Some b →
  (nbtree_append (timestamp sample) (float64 sample) (pointee b)).1 ≠ OK_FLUSH_NEEDED →
  IngestionSession_write A sample w = IngestionSession_write B sample w ∧
  ∃ status,
    IngestionSession_write B sample w
    = Ret status
        (set_heap
           (<[h := mk_block
                     (nbtree_append (timestamp sample) (float64 sample) (pointee b)).2
                     (use_count b)]> (heap w)) w).
Proof.
  intros (v & Hv & Hok)%Reachable_view_ok Hreg Hact HA HB Hne Hfloat Hh Hb Hr.
  destruct (held_handle _ _ _ _ _ _ _ Hv Hok Hreg HB Hh) as (e & b' & He & <- & Hb' & Hcnt).
  assert (b' = b) as -> by congruence.
  assert (Hmiss : cache_ sA !! paramid sample = None).
  { destruct (cache_ sA !! paramid sample) as [h'|] eqn:Hh'; [|done].
    exfalso. apply Hne. eapply (single_holder w v A B sA sB); eauto. }
  destruct (nbtree_append (timestamp sample) (float64 sample) (pointee b))
    as [r tree] eqn:Happ. simpl in Hr |- *.
  set (w' := set_heap _ w).
  assert (Hat : append_at (roots_ e) sample w = Ret r w').
  { unfold append_at. by rewrite Hb, Happ. }
  assert (HwB : IngestionSession_write B sample w
                = write_interpret (paramid sample) (Some (roots_ e)) AKU_SUCCESS r w').
  { unfold IngestionSession_write. rewrite HB, decide_False by (by intros []).
    rewrite Hh. unfold write_dispatch. by rewrite Hat. }
  assert (HwA : IngestionSession_write A sample w
                = write_interpret (paramid sample) None AKU_SUCCESS r w').
  { unfold IngestionSession_write. rewrite HA, decide_False by (by intros []).
    rewrite Hmiss. unfold write_dispatch, TreeRegistry_try_acquire. rewrite Hreg, He.
    destruct (RegistryEntry_try_acquire_spec e (heap w)) as [_ ->].
    2:{ intros (b0 & Hb0 & Hone). congruence. }
    rewrite set_heap_same. unfold TreeRegistry_broadcast_sample.
    rewrite (broadcast_loop_owner (active_ reg) sample A B sB (roots_ e) r w w'); try done.
    intros tok s' Hs' Hsome. eapply (single_holder w v tok B s' sB); eauto. }
  rewrite HwA, HwB. unfold write_interpret. rewrite decide_True by done.
  destruct r; try done; eauto.
Qed.

End FurtherProperties.

(** * The further properties on the run with two sessions *)

Lemma demo_registry_alive : registry demo_owned = Some demo_registry.
Proof. vm_compute. reflexivity. Defined.

Lemma write_status_surface_witness :
  AKU_SUCCESS = AKU_SUCCESS ∨ AKU_SUCCESS = AKU_ENOT_FOUND ∨ AKU_SUCCESS = AKU_ECLOSED
  ∨ AKU_SUCCESS = AKU_EBAD_ARG ∨ AKU_SUCCESS = AKU_ELATE_WRITE.
Proof.
  exact (write_status_surface 0%nat (demo_sample 1 10 0) demo_registered AKU_SUCCESS
           demo_owned demo_write_returns).
Defined.

Lemma demo_peer_write_returns :
  IngestionSession_write 1%nat (demo_sample 1 11 0) demo_owned
  = Ret AKU_SUCCESS
      (result_world (IngestionSession_write 1%nat (demo_sample 1 11 0) demo_owned)).
Proof. vm_compute. reflexivity. Defined.

Lemma broadcast_sample_delivers_once_witness :
  TreeRegistry_broadcast_sample (demo_sample 1 11 0) 1%nat demo_registry demo_owned
  = Ret OK (result_world (IngestionSession_write 1%nat (demo_sample 1 11 0) demo_owned)) ∧
  ∃ tok, tok ∈ active_ demo_registry ∧ tok ≠ 1%nat.
Proof.
  assert (Hb : TreeRegistry_broadcast_sample (demo_sample 1 11 0) 1%nat demo_registry
                 demo_owned
               = Ret OK (result_world
                           (IngestionSession_write 1%nat (demo_sample 1 11 0) demo_owned)))
    by (vm_compute; reflexivity).
  split; [exact Hb|].
  destruct (broadcast_sample_delivers_once _ _ _ _ _ _ Hb)
    as [(Hr & _)|(tok & _ & _ & _ & _ & Hin & Hne & _)]; [done|].
  by exists tok.
Defined.

Lemma write_frame_witness :
  sessions (result_world (IngestionSession_write 1%nat (demo_sample 1 11 0) demo_owned))
    !! 0%nat
  = sessions demo_owned !! 0%nat.
Proof.
  destruct (write_frame 1%nat (demo_sample 1 11 0) demo_owned AKU_SUCCESS _
              demo_peer_write_returns) as (_ & _ & Hothers & _).
  by apply Hothers.
Defined.

Lemma write_unregistered_id_witness :
  table_ demo_registry !! 7 = None ∧
  IngestionSession_write 1%nat (demo_sample 7 11 0) demo_owned
  = Ret AKU_ENOT_FOUND demo_owned.
Proof.
  split; [vm_compute; reflexivity|].
  apply (write_unregistered_id 1%nat (mk_session SeriesMatcher.empty ∅)
           (demo_sample 7 11 0) demo_registry demo_owned).
  - vm_compute. reflexivity.
  - reflexivity.
  - reflexivity.
  - exact demo_registry_alive.
  - vm_compute. reflexivity.
Defined.

Lemma write_uncached_after_teardown_witness :
  registry demo_torn_down = None ∧
  IngestionSession_write 1%nat (demo_sample 1 11 0) demo_torn_down
  = Ret AKU_ECLOSED demo_torn_down.
Proof.
  split; [vm_compute; reflexivity|].
  apply (write_uncached_after_teardown 1%nat (mk_session SeriesMatcher.empty ∅)
           (demo_sample 1 11 0) demo_torn_down).
  - vm_compute. reflexivity.
  - reflexivity.
  - reflexivity.
  - vm_compute. reflexivity.
Defined.

Lemma write_acquires_free_series_witness :
  IngestionSession_write 0%nat (demo_sample 1 10 2) demo_registered
  = Ret AKU_ELATE_WRITE
      (set_heap (<[0%nat := demo_block [] 2]> (heap demo_registered))
         (set_session 0%nat
            (mk_session (SeriesMatcher._add "abc" 1 SeriesMatcher.empty) {[1 := 0%nat]})
            demo_registered)).
Proof.
  pose proof (write_acquires_free_series 0%nat
                (mk_session (SeriesMatcher._add "abc" 1 SeriesMatcher.empty) ∅)
                (demo_sample 1 10 2)
                (default (new_registry MetadataStorage.empty) (registry demo_registered))
                (mk_entry 0) (demo_block [] 1) FAIL_LATE_WRITE [] demo_registered) as H.
  simpl in H. destruct H as [H _].
  - vm_compute. reflexivity.
  - reflexivity.
  - reflexivity.
  - vm_compute. reflexivity.
  - vm_compute. reflexivity.
  - vm_compute. reflexivity.
  - reflexivity.
  - vm_compute. reflexivity.
  - done.
  - exact H.
Defined.

Lemma try_acquire_exclusive_until_released_witness :
  RegistryEntry_try_acquire (mk_entry 0) [demo_block [] 1]
  = (AKU_SUCCESS, Some 0%nat, [demo_block [] 2]) ∧
  release_ref 0 [demo_block [] 2] = [demo_block [] 1].
Proof.
  assert (H : RegistryEntry_try_acquire (mk_entry 0) [demo_block [] 1]
              = (AKU_SUCCESS, Some 0%nat, [demo_block [] 2])) by (vm_compute; reflexivity).
  split; [exact H|].
  by destruct (try_acquire_exclusive_until_released _ _ _ _ H) as (_ & _ & _ & _ & ?).
Defined.

Lemma write_flush_signals_sync_witness :
  ∃ w' reg',
    IngestionSession_write 0%nat (demo_sample 1 12 1) demo_owned = Ret AKU_SUCCESS w' ∧
    registry w' = Some reg' ∧
    rescue_points_ reg' !! 1 = Some [10; 12] ∧
    TreeRegistry_wait_for_sync_request cv_no_timeout reg' = AKU_SUCCESS.
Proof.
  destruct (write_flush_signals_sync 0%nat
              (mk_session (SeriesMatcher._add "abc" 1 SeriesMatcher.empty) {[1 := 0%nat]})
              (demo_sample 1 12 1) 0%nat (demo_block [(10, 0)] 2) [(10, 0); (12, 1)]
              demo_registry demo_owned)
    as (w' & reg' & Hw & Hreg & Hrp & Hwait & _).
  - vm_compute. reflexivity.
  - reflexivity.
  - vm_compute. reflexivity.
  - vm_compute. reflexivity.
  - vm_compute. reflexivity.
  - exact demo_registry_alive.
  - by exists w', reg'.
Defined.

Lemma get_series_name_unknown_id_witness :
  IngestionSession_get_series_name 1%nat 9 ["x"; "y"]%char 2 demo_owned
  = Ret (0, ["x"; "y"]%char) demo_owned.
Proof.
  apply (get_series_name_unknown_id 1%nat (mk_session SeriesMatcher.empty ∅)).
  - vm_compute. reflexivity.
  - reflexivity.
  - intros reg Hreg. rewrite demo_registry_alive in Hreg. injection Hreg as <-.
    vm_compute. reflexivity.
Defined.

Lemma registry_get_series_name_contract_witness :
  TreeRegistry_get_series_name 1 ["w"; "x"; "y"; "z"]%char 4 SeriesMatcher.empty
    demo_registry
  = (inr (3, ["a"; "b"; "c"; "z"]%char), SeriesMatcher._add "abc" 1 SeriesMatcher.empty) ∧
  TreeRegistry_get_series_name 1 ["x"; "y"]%char 2 SeriesMatcher.empty demo_registry
  = (inr (-3, ["x"; "y"]%char), SeriesMatcher._add "abc" 1 SeriesMatcher.empty).
Proof.
  split.
  - apply (registry_get_series_name_contract 1 "abc" ["w"; "x"; "y"; "z"]%char
             SeriesMatcher.empty demo_registry).
    + vm_compute. reflexivity.
    + simpl. lia.
  - apply (registry_get_series_name_contract 1 "abc" ["x"; "y"]%char
             SeriesMatcher.empty demo_registry).
    + vm_compute. reflexivity.
    + simpl. lia.
Defined.

Lemma registry_get_series_name_int_overflow_witness :
  TreeRegistry_get_series_name 1 ["w"; "x"; "y"; "z"]%char (2 ^ 31) SeriesMatcher.empty
    demo_registry
  = (inr (-3, ["w"; "x"; "y"; "z"]%char), SeriesMatcher._add "abc" 1 SeriesMatcher.empty).
Proof.
  apply (registry_get_series_name_int_overflow 1 "abc" ["w"; "x"; "y"; "z"]%char (2 ^ 31)
           SeriesMatcher.empty demo_registry).
  - vm_compute. reflexivity.
  - lia.
Defined.

Lemma demo_registered_reachable : Reachable demo_registered.
Proof.
  destruct demo_two_sessions_reachable as [meta Hsteps]. exists meta.
  eapply rtc_r; [exact Hsteps|].
  eapply step_init_series_id. exact demo_init_returns.
Defined.

Lemma write_faults_only_by_stale_iterator_witness :
  Reachable demo_registered ∧
  IngestionSession_write 0%nat (demo_sample 1 10 1) demo_registered
  = Crash EndIteratorDeref
      (result_world (IngestionSession_write 0%nat (demo_sample 1 10 1) demo_registered)) ∧
  EndIteratorDeref = EndIteratorDeref.
Proof.
  split; [exact demo_registered_reachable|].
  assert (H : IngestionSession_write 0%nat (demo_sample 1 10 1) demo_registered
              = Crash EndIteratorDeref
                  (result_world
                     (IngestionSession_write 0%nat (demo_sample 1 10 1) demo_registered)))
    by (vm_compute; reflexivity).
  split; [exact H|].
  assert (Hs : sessions demo_registered !! 0%nat
               = Some (mk_session (SeriesMatcher._add "abc" 1 SeriesMatcher.empty) ∅))
    by (vm_compute; reflexivity).
  by destruct (write_faults_only_by_stale_iterator 0%nat _ _ _ _ _
                 demo_registered_reachable Hs H) as [_ _].
Defined.

Lemma deleter_releases_ownership_witness :
  Reachable demo_owned ∧
  sessions (session_deleter 0%nat demo_owned) !! 0%nat = None.
Proof.
  split; [exact demo_owned_reachable|].
  assert (Hs : sessions demo_owned !! 0%nat
               = Some (mk_session (SeriesMatcher._add "abc" 1 SeriesMatcher.empty)
                         {[1 := 0%nat]}))
    by (vm_compute; reflexivity).
  by destruct (deleter_releases_ownership demo_owned demo_registry 0%nat _ 1 0%nat
                 demo_owned_reachable demo_registry_alive Hs eq_refl) as [? _].
Defined.

Lemma create_then_write_witness :
  Reachable demo_two_sessions ∧
  ∃ w1, IngestionSession_init_series_id 0%nat "abc" (demo_sample 0 0 0) demo_two_sessions
        = Ret (AKU_SUCCESS, demo_sample 1 0 0) w1.
Proof.
  split; [exact demo_two_sessions_reachable|].
  destruct (create_then_write demo_two_sessions
              (default (new_registry MetadataStorage.empty) (registry demo_two_sessions))
              0%nat (mk_session SeriesMatcher.empty ∅) "abc" "abc" (demo_sample 0 0 0)
              demo_two_sessions_reachable) as (w1 & Hinit & _).
  - vm_compute. reflexivity.
  - vm_compute. reflexivity.
  - reflexivity.
  - vm_compute. reflexivity.
  - exists w1. exact Hinit.
Defined.

Lemma local_names_survive_teardown_witness :
  Reachable demo_two_sessions ∧
  IngestionSession_init_series_id 0%nat "abc" (demo_sample 0 5 0)
    (TreeRegistry_destructor demo_registered)
  = Ret (AKU_SUCCESS, demo_sample 1 5 0) (TreeRegistry_destructor demo_registered).
Proof.
  split; [exact demo_two_sessions_reachable|].
  destruct (local_names_survive_teardown demo_two_sessions 0%nat "abc" "abc"
              (demo_sample 0 0 0) (demo_sample 1 0 0) demo_registered
              (TreeRegistry_destructor demo_registered)
              demo_two_sessions_reachable eq_refl demo_init_returns
              ltac:(vm_compute; reflexivity) ltac:(intros; reflexivity))
    as (Hinit & _).
  exact (Hinit (demo_sample 0 5 0)).
Defined.

Lemma active_sessions_alive_once_witness :
  Reachable demo_owned ∧ NoDup (active_ demo_registry).
Proof.
  split; [exact demo_owned_reachable|].
  by destruct (active_sessions_alive_once demo_owned demo_registry
                 demo_owned_reachable demo_registry_alive) as [? _].
Defined.

Lemma create_session_registers_witness :
  Reachable demo_owned ∧
  ∃ ptr w' reg', TreeRegistry_create_session demo_owned = Some (ptr, w') ∧
                 sessions demo_owned !! ptr = None ∧
                 registry w' = Some reg' ∧ ptr ∈ active_ reg'.
Proof.
  split; [exact demo_owned_reachable|].
  destruct (create_session_registers demo_owned demo_registry
              demo_owned_reachable demo_registry_alive)
    as (ptr & w' & reg' & Hc & Hnone & _ & _ & Hreg' & _ & Hmem & _).
  exists ptr, w', reg'. split_and!; try done. apply Hmem. by right.
Defined.

Lemma write_by_peer_equals_write_by_owner_witness :
  Reachable demo_owned ∧
  IngestionSession_write 1%nat (demo_sample 1 11 2) demo_owned
  = IngestionSession_write 0%nat (demo_sample 1 11 2) demo_owned.
Proof.
  split; [exact demo_owned_reachable|].
  destruct (write_by_peer_equals_write_by_owner demo_owned demo_registry 1%nat 0%nat
              (mk_session SeriesMatcher.empty ∅)
              (mk_session (SeriesMatcher._add "abc" 1 SeriesMatcher.empty) {[1 := 0%nat]})
              (demo_sample 1 11 2) 0%nat (demo_block [(10, 0)] 2)
              demo_owned_reachable demo_registry_alive) as [Heq _].
  - vm_compute. by left.
  - vm_compute. reflexivity.
  - vm_compute. reflexivity.
  - done.
  - reflexivity.
  - vm_compute. reflexivity.
  - vm_compute. reflexivity.
  - vm_compute. done.
  - exact Heq.
Defined.
